(** * AlphaPulse: Monte Carlo portfolio simulation and Value-at-Risk

    A shallow embedding of the numerical core of [src/app.py]: the
    derivation of daily returns from the price table, the per-asset
    statistics, the Monte Carlo compounding loop, the 5th percentile of the
    ending values and the Value-at-Risk classification.

    Numbers.  The script computes on IEEE-754 doubles (numpy [float64]).
    Its arithmetic is read in two ways.  In the first, [Num], the doubles
    are exact rationals extended with the three special values of the
    format, [+inf], [-inf] and [NaN], with the IEEE rules for them (NaN is
    absorbing, [x/0] is an infinity or NaN, [inf - inf] is NaN, every
    comparison with NaN is false), and nothing is rounded.  It carries the
    statements that do not depend on rounding: which operations are applied
    to which values in which order, the shape of the tables, the propagation
    of NaN, the exceptions, the comparisons and the verdict.  In the second,
    [Binary64] and [Rounded], the result of every operation is rounded to
    the nearest double, ties to even, with overflow to an infinity and
    gradual underflow.  It carries the statements about magnitudes: whether
    a value is finite or positive, whether doubling is exact, how far the
    loop is from a closed form.  The sign of zero is kept in neither. *)

From Stdlib Require Import ZArith QArith Qcanon Qround Qpower List Bool Lia Arith.
From Stdlib Require Import Lqa.
From Stdlib Require Import Permutation Sorted.
From Stdlib Require Floats.
Import ListNotations.

Set Implicit Arguments.

(** ** Numbers *)

Module Num.

Inductive num : Type :=
| Fin (q : Qc)
| PInf
| NInf
| NaN.

Definition zero : num := Fin 0%Qc.
Definition one : num := Fin 1%Qc.

(** A Python [int] that meets a [float64] is converted to it. *)
Definition of_Z (z : Z) : num := Fin (Q2Qc (inject_Z z)).
Definition of_nat (n : nat) : num := of_Z (Z.of_nat n).

Definition isnan (x : num) : bool :=
  match x with NaN => true | _ => false end.

Definition isfinite (x : num) : bool :=
  match x with Fin _ => true | _ => false end.

Definition opp (x : num) : num :=
  match x with
  | Fin q => Fin (- q)%Qc
  | PInf => NInf
  | NInf => PInf
  | NaN => NaN
  end.

Definition add (x y : num) : num :=
  match x, y with
  | NaN, _ | _, NaN => NaN
  | Fin a, Fin b => Fin (a + b)%Qc
  | PInf, NInf | NInf, PInf => NaN
  | PInf, _ | _, PInf => PInf
  | NInf, _ | _, NInf => NInf
  end.

Definition sub (x y : num) : num := add x (opp y).

(** The infinity carrying the sign of [q], oriented by [pos]; NaN at zero. *)
Definition inf_signed (q : Qc) (pos : bool) : num :=
  match (q ?= 0)%Qc with
  | Eq => NaN
  | Gt => if pos then PInf else NInf
  | Lt => if pos then NInf else PInf
  end.

Definition mul (x y : num) : num :=
  match x, y with
  | NaN, _ | _, NaN => NaN
  | Fin a, Fin b => Fin (a * b)%Qc
  | Fin a, PInf => inf_signed a true
  | Fin a, NInf => inf_signed a false
  | PInf, Fin b => inf_signed b true
  | NInf, Fin b => inf_signed b false
  | PInf, PInf | NInf, NInf => PInf
  | PInf, NInf | NInf, PInf => NInf
  end.

Definition Qc_is_zero (q : Qc) : bool :=
  match (q ?= 0)%Qc with Eq => true | _ => false end.

Definition Qc_ltb (a b : Qc) : bool :=
  match (a ?= b)%Qc with Lt => true | _ => false end.

Definition Qc_leb (a b : Qc) : bool :=
  match (a ?= b)%Qc with Gt => false | _ => true end.

(** numpy division: a finite number over zero is an infinity, [0/0] is NaN;
    nothing is raised. *)
Definition div (x y : num) : num :=
  match x, y with
  | NaN, _ | _, NaN => NaN
  | Fin a, Fin b => if Qc_is_zero b then inf_signed a true else Fin (a / b)%Qc
  | Fin _, (PInf | NInf) => zero
  | PInf, Fin b => if Qc_ltb b 0 then NInf else PInf
  | NInf, Fin b => if Qc_ltb b 0 then PInf else NInf
  | (PInf | NInf), (PInf | NInf) => NaN
  end.

Definition ltb (x y : num) : bool :=
  match x, y with
  | NaN, _ | _, NaN => false
  | Fin a, Fin b => Qc_ltb a b
  | NInf, (Fin _ | PInf) => true
  | Fin _, PInf => true
  | _, _ => false
  end.

Definition leb (x y : num) : bool :=
  match x, y with
  | NaN, _ | _, NaN => false
  | Fin a, Fin b => Qc_leb a b
  | NInf, _ => true
  | _, PInf => true
  | _, _ => false
  end.

(** [x > y] and [x >= y], as the script writes them. *)
Definition gtb (x y : num) : bool := ltb y x.
Definition geb (x y : num) : bool := leb y x.

(** The sign bit, used by numpy to reject a negative scale. *)
Definition signbit (x : num) : bool :=
  match x with
  | Fin q => Qc_ltb q 0
  | NInf => true
  | _ => false
  end.

(** Python's [abs]. *)
Definition abs (x : num) : num :=
  match x with
  | Fin q => if Qc_ltb q 0 then Fin (- q)%Qc else Fin q
  | PInf | NInf => PInf
  | NaN => NaN
  end.

(** [np.floor] followed by the conversion to an index; only applied to
    finite numbers. *)
Definition floor (x : num) : Z :=
  match x with
  | Fin q => Qfloor q
  | _ => 0%Z
  end.

(** The same number; NaN is not the same as anything, as for [==]. *)
Definition eqb (x y : num) : bool :=
  match x, y with
  | Fin a, Fin b => Qc_eq_bool a b
  | PInf, PInf | NInf, NInf => true
  | _, _ => false
  end.

(** The order numpy sorts by: NaN after everything else. *)
Definition sort_leb (x y : num) : bool :=
  match x, y with
  | _, NaN => true
  | NaN, _ => false
  | _, _ => leb x y
  end.

End Num.

Import Num.

(** ** Python exceptions

    Everything the script computes sits inside one [try] block whose handler
    catches [Exception] and prints it.  The two exceptions the modelled calls
    can raise are kept apart. *)

Inductive exn : Type :=
| ValueError
| IndexError.

Inductive result (A : Type) : Type :=
| Ok (a : A)
| Raise (e : exn).

Arguments Ok {A} a.
Arguments Raise {A} e.

Definition bind {A B : Type} (c : result A) (k : A -> result B) : result B :=
  match c with
  | Ok a => k a
  | Raise e => Raise e
  end.

Notation "x <- c ;; k" := (bind c (fun x => k))
  (at level 61, c at next level, right associativity).
Notation "' pat <- c ;; k" := (bind c (fun x => match x with pat => k end))
  (at level 61, pat pattern, c at next level, right associativity).

(** ** What the libraries supply

    [np.random] keeps one global generator.  [seed s] is the state that
    [np.random.seed(s)] installs and [gauss] is one draw of the standard
    normal sampler, which returns a finite number and the next state. *)

Class RandomState : Type := {
  rng : Type;
  seed : Z -> rng;
  gauss : rng -> Qc * rng
}.

(** The square root on the non-negative rationals, uninterpreted but for
    its sign: its values are irrational in general. *)
Class RealSqrt : Type := {
  sqrtQ : Qc -> Qc;
  sqrtQ_nonneg : forall q, (0 <= sqrtQ q)%Qc
}.

(** ** Series and data frames

    A [Series] is one column, indexed by trading day; a [DataFrame] is the
    list of its columns, which all have the same length.  The index is not
    kept: a frame without columns has no rows. *)

Definition Series : Type := list num.
Definition DataFrame : Type := list Series.

Definition nrows (df : DataFrame) : nat :=
  match df with
  | [] => 0
  | c :: _ => length c
  end.

Definition ncols (df : DataFrame) : nat := length df.

(** [DataFrame.ffill]: a missing price takes the last price seen before it;
    missing prices at the head of a column stay missing. *)
Fixpoint ffill_from (prev : num) (s : Series) : Series :=
  match s with
  | [] => []
  | x :: s' =>
      let v := if isnan x then prev else x in
      v :: ffill_from v s'
  end.

Definition ffill (df : DataFrame) : DataFrame := map (ffill_from NaN) df.

(** [DataFrame.pct_change]: [data / data.shift(1) - 1]; the shifted column
    starts with NaN. *)
Fixpoint pct_from (prev : num) (s : Series) : Series :=
  match s with
  | [] => []
  | x :: s' => sub (div x prev) one :: pct_from x s'
  end.

Definition pct_change (df : DataFrame) : DataFrame := map (pct_from NaN) df.

(** [DataFrame.dropna]: a day is kept when no column is NaN on it. *)
Definition row_has_na (df : DataFrame) (t : nat) : bool :=
  existsb (fun c => isnan (nth t c NaN)) df.

Definition kept_rows (df : DataFrame) : list nat :=
  filter (fun t => negb (row_has_na df t)) (seq 0 (nrows df)).

Definition take_rows (ts : list nat) (c : Series) : Series :=
  map (fun t => nth t c NaN) ts.

Definition dropna (df : DataFrame) : DataFrame :=
  map (take_rows (kept_rows df)) df.

(** [returns = data.pct_change().dropna()], after [data = data.ffill()]. *)
Definition daily_returns (data : DataFrame) : DataFrame :=
  dropna (pct_change data).

(** [DataFrame.iloc[-1]]: the last row; IndexError on a frame without rows. *)
Definition iloc_last (df : DataFrame) : result Series :=
  if (nrows df =? 0)%nat then Raise IndexError
  else Ok (map (fun c => last c NaN) df).

(** ** Statistics *)

Definition sum (xs : list num) : num := fold_left add xs zero.

Definition notna (s : Series) : Series := filter (fun x => negb (isnan x)) s.

(** [Series.mean], which skips NaN. *)
Definition nanmean (s : Series) : num :=
  let values := notna s in
  div (sum values) (of_nat (length values)).

(** [Series.var] with pandas' default [ddof = 1]: NaN when there are no more
    observations than [ddof]. *)
Definition nanvar (s : Series) : num :=
  let values := notna s in
  let count := length values in
  if (count <=? 1)%nat then NaN
  else
    let avg := div (sum values) (of_nat count) in
    let sqr := map (fun x => mul (sub avg x) (sub avg x)) values in
    div (sum sqr) (of_nat (count - 1)).

Definition np_sqrt `{RealSqrt} (x : num) : num :=
  match x with
  | Fin q => if Qc_ltb q 0 then NaN else Fin (sqrtQ q)
  | PInf => PInf
  | _ => NaN
  end.

(** [Series.std]. *)
Definition nanstd `{RealSqrt} (s : Series) : num := np_sqrt (nanvar s).

(** [np.mean(row)]: no NaN is skipped. *)
Definition np_mean (xs : list num) : num :=
  div (sum xs) (of_nat (length xs)).

(** The statistics of one asset: (mean daily return, daily volatility). *)
Definition ReturnStatistics : Type := list (num * num).

Definition avg_daily_return (returns : DataFrame) : list num :=
  map nanmean returns.

Definition daily_vol `{RealSqrt} (returns : DataFrame) : list num :=
  map nanstd returns.

Definition return_statistics `{RealSqrt} (returns : DataFrame)
  : ReturnStatistics :=
  combine (avg_daily_return returns) (daily_vol returns).

(** ** The path simulator *)

Section PathSimulator.

Context `{RandomState}.

(** numpy raises [ValueError] on a scale that is negative and not NaN. *)
Definition scale_ok (stats : ReturnStatistics) : bool :=
  forallb (fun p => negb (negb (isnan (snd p)) && signbit (snd p))) stats.

(** One row of [np.random.normal(loc, scale, (H, N))]: asset after asset,
    [loc + scale * gauss()].  The price table is taken to have one column
    for each selected ticker, so that [len(tickers)] is the number [N] of
    statistics. *)
Fixpoint draw_row (stats : ReturnStatistics) (st : rng) : list num * rng :=
  match stats with
  | [] => ([], st)
  | (loc, scale) :: rest =>
      let (g, st1) := gauss st in
      let (xs, st2) := draw_row rest st1 in
      (add loc (mul scale (Fin g)) :: xs, st2)
  end.

(** The rows are filled one after the other. *)
Fixpoint draw_rows (stats : ReturnStatistics) (H : nat) (st : rng)
  : list (list num) * rng :=
  match H with
  | O => ([], st)
  | S h =>
      let (row, st1) := draw_row stats st in
      let (rows, st2) := draw_rows stats h st1 in
      (row :: rows, st2)
  end.

Definition normal (stats : ReturnStatistics) (H : nat) (st : rng)
  : result (list (list num) * rng) :=
  if scale_ok stats then Ok (draw_rows stats H st) else Raise ValueError.

(** [portfolio_daily_returns = np.mean(random_returns, axis=1)]. *)
Definition portfolio_daily_returns (random_returns : list (list num))
  : list num :=
  map np_mean random_returns.

(** The inner loop:
    [current_value = current_value * (1 + r); portfolio_path.append(current_value)]. *)
Fixpoint portfolio_path (current_value : num) (rs : list num) : Series :=
  match rs with
  | [] => []
  | r :: rs' =>
      let current_value' := mul current_value (add one r) in
      current_value' :: portfolio_path current_value' rs'
  end.

(** The body of the outer loop, for one simulation. *)
Definition simulate_run (stats : ReturnStatistics) (H : nat)
  (initial_investment : Z) (st : rng) : result (Series * rng) :=
  '(random_returns, st') <- normal stats H st;;
  Ok (portfolio_path (of_Z initial_investment)
        (portfolio_daily_returns random_returns), st').

(** The outer loop; each path becomes a new last column of [simulation_df]. *)
Fixpoint simulate_runs (stats : ReturnStatistics) (H : nat)
  (initial_investment : Z) (R : nat) (simulation_df : DataFrame) (st : rng)
  : result (DataFrame * rng) :=
  match R with
  | O => Ok (simulation_df, st)
  | S r =>
      '(path, st') <- simulate_run stats H initial_investment st;;
      simulate_runs stats H initial_investment r (simulation_df ++ [path]) st'
  end.

(** [np.random.seed(s)] followed by the loop.  The state the global
    generator was in before is overwritten. *)
Definition monte_carlo (s : Z) (stats : ReturnStatistics) (H R : nat)
  (initial_investment : Z) (ambient : rng) : result (DataFrame * rng) :=
  simulate_runs stats H initial_investment R [] (seed s).

(** The generator state after [k] draws. *)
Fixpoint after_draws (k : nat) (st : rng) : rng :=
  match k with
  | O => st
  | S k' => after_draws k' (snd (gauss st))
  end.

End PathSimulator.

(** ** The risk summary *)

Fixpoint insert_sorted (x : num) (l : list num) : list num :=
  match l with
  | [] => [x]
  | y :: l' => if sort_leb x y then x :: l else y :: insert_sorted x l'
  end.

Definition np_sort (l : list num) : list num :=
  fold_right insert_sorted [] l.

(** Indexing an array of length [n], a negative index counting from the
    end.  [np_percentile] only passes indexes that are in range; out of range
    the model answers NaN where numpy raises. *)
Definition getitem (arr : list num) (i : Z) : num :=
  let j := if (i <? 0)%Z then (Z.of_nat (length arr) + i)%Z else i in
  nth (Z.to_nat j) arr NaN.

(** numpy's [_get_indexes] for one virtual index. *)
Definition get_indexes (virtual_index : num) (n : nat) : Z * Z :=
  let previous_index := floor virtual_index in
  let next_index := (previous_index + 1)%Z in
  if geb virtual_index (of_Z (Z.of_nat n - 1)) then ((-1)%Z, (-1)%Z)
  else if ltb virtual_index zero then (0%Z, 0%Z)
  else (previous_index, next_index).

(** numpy's [_lerp]. *)
Definition lerp (a b t : num) : num :=
  let diff_b_a := sub b a in
  if geb t (Fin (Q2Qc (1 # 2))) then sub b (mul diff_b_a (sub one t))
  else add a (mul diff_b_a t).

(** [np.percentile(a, q)] with the default method, [linear]. *)
Definition np_percentile (a : list num) (q : Z) : result num :=
  if negb ((0 <=? q)%Z && (q <=? 100)%Z) then Raise ValueError
  else
    match a with
    | [] => Raise IndexError
    | _ =>
        let arr := np_sort a in
        let n := length arr in
        let quantile := div (of_Z q) (of_Z 100) in
        let virtual_index := mul (of_Z (Z.of_nat n - 1)) quantile in
        let '(previous_index, next_index) := get_indexes virtual_index n in
        let gamma := sub virtual_index (of_Z previous_index) in
        let r := lerp (getitem arr previous_index) (getitem arr next_index)
                   gamma in
        Ok (if isnan (getitem arr (-1)) then NaN else r)
    end.

Inductive scenario : Type :=
| RiskWarning (loss : num)
| SafeHarbor (profit : num).

Record RiskMetrics : Type := {
  future_value_95 : num;
  VaR_95 : num;
  verdict : scenario
}.

Definition classify (VaR : num) : scenario :=
  if gtb VaR zero then RiskWarning VaR else SafeHarbor (abs VaR).

Definition risk_metrics (ending_values : Series) (initial_investment : Z)
  : result RiskMetrics :=
  p5 <- np_percentile ending_values 5;;
  let VaR := sub (of_Z initial_investment) p5 in
  Ok {| future_value_95 := p5; VaR_95 := VaR; verdict := classify VaR |}.

(** ** The analysis *)

Definition num_simulations : nat := Z.to_nat 10000.
Definition time_horizon : nat := 252.

Section Analysis.

Context `{RandomState} `{RealSqrt}.

(** The simulation and the risk figures, with the seed, the statistics, the
    horizon and the number of runs as parameters. *)
Definition simulate_and_summarise (s : Z) (stats : ReturnStatistics)
  (H R : nat) (initial_investment : Z) (ambient : rng)
  : result (DataFrame * RiskMetrics) :=
  '(simulation_df, _) <-
    monte_carlo s stats H R initial_investment ambient;;
  ending_values <- iloc_last simulation_df;;
  metrics <- risk_metrics ending_values initial_investment;;
  Ok (simulation_df, metrics).

(** The simulation tab.  After the seed is set the script evaluates
    [last_prices = data.iloc[-1]], which it never uses but which raises
    [IndexError] on a table without rows; the statistics are those of
    [returns]. *)
Definition simulation_tab (s : Z) (H R : nat) (data returns : DataFrame)
  (initial_investment : Z) (ambient : rng)
  : result (DataFrame * RiskMetrics) :=
  last_prices <- iloc_last data;;
  simulate_and_summarise s (return_statistics returns) H R
    initial_investment ambient.

(** What the script does with a downloaded price table. *)
Definition run_analysis (data : DataFrame) (initial_investment : Z)
  (ambient : rng) : result (DataFrame * RiskMetrics) :=
  let data := ffill data in
  let returns := daily_returns data in
  simulation_tab 42 time_horizon num_simulations data returns
    initial_investment ambient.

End Analysis.

(** ** Notions used to state the properties *)

(** The product of a list, taken from the left. *)
Definition prod (xs : list num) : num := fold_left mul xs one.

Definition two : num := of_Z 2.
Definition double (x : num) : num := mul two x.

Section Runs.

Context `{RandomState}.

(** The generator state in which run [r] starts, when every run of the
    loop consumes [H * N] draws of the one generator seeded with [s]. *)
Definition run_state (s : Z) (stats : ReturnStatistics) (H r : nat) : rng :=
  after_draws (r * (H * length stats)) (seed s).

(** The [random_returns] matrix of run [r], its portfolio returns and its
    path. *)
Definition random_returns_of_run (s : Z) (stats : ReturnStatistics)
  (H r : nat) : list (list num) :=
  fst (draw_rows stats H (run_state s stats H r)).

Definition portfolio_returns_of_run (s : Z) (stats : ReturnStatistics)
  (H r : nat) : list num :=
  portfolio_daily_returns (random_returns_of_run s stats H r).

Definition path_of_run (s : Z) (stats : ReturnStatistics) (H : nat)
  (initial_investment : Z) (r : nat) : Series :=
  portfolio_path (of_Z initial_investment)
    (portfolio_returns_of_run s stats H r).

End Runs.

(** The value of run [r] on day [t]. *)
Definition value_at (df : DataFrame) (r t : nat) : num :=
  nth t (nth r df []) NaN.

Definition all_nan (l : list num) : Prop := Forall (fun x => x = NaN) l.

(** What the risk summary shows when the percentile is NaN. *)
Definition nan_metrics : RiskMetrics :=
  {| future_value_95 := NaN; VaR_95 := NaN; verdict := SafeHarbor NaN |}.

Definition finite_stats (stats : ReturnStatistics) : bool :=
  forallb (fun p => isfinite (fst p) && isfinite (snd p)) stats.

Definition double_scenario (v : scenario) : scenario :=
  match v with
  | RiskWarning loss => RiskWarning (double loss)
  | SafeHarbor profit => SafeHarbor (double profit)
  end.

Definition double_metrics (m : RiskMetrics) : RiskMetrics :=
  {| future_value_95 := double (future_value_95 m);
     VaR_95 := double (VaR_95 m);
     verdict := double_scenario (verdict m) |}.

(** The 5th percentile in the words of the specification: the values in
    increasing order, [rank = 0.05 * (R - 1)], and the linear interpolation
    between the two sorted values that bracket the rank. *)
Fixpoint insert_Qc (x : Qc) (l : list Qc) : list Qc :=
  match l with
  | [] => [x]
  | y :: l' => if Qc_leb x y then x :: l else y :: insert_Qc x l'
  end.

Definition sort_Qc (l : list Qc) : list Qc := fold_right insert_Qc [] l.

Definition linear_interpolation_p5 (values : list Qc) : Qc :=
  let sorted := sort_Qc values in
  let rank :=
    (Q2Qc (5 # 100) * Q2Qc (inject_Z (Z.of_nat (length values) - 1)))%Qc in
  let below := nth (Z.to_nat (Qfloor rank)) sorted 0%Qc in
  let above := nth (Z.to_nat (Qceiling rank)) sorted 0%Qc in
  (below + (rank - Q2Qc (inject_Z (Qfloor rank))) * (above - below))%Qc.

(** The values 1, 2, ..., 100. *)
Definition one_to_hundred : list Qc :=
  map (fun n => Q2Qc (inject_Z (Z.of_nat n))) (seq 1 100).

(** The daily returns in the words of the specification: for each asset,
    [price[t] / price[t-1] - 1] on every day after the first. *)
Definition simple_returns (D : nat) (prices : Series) : Series :=
  map (fun t => sub (div (nth (S t) prices NaN) (nth t prices NaN)) one)
      (seq 0 (D - 1)).







(** ** A small generator, an exact root and inputs for the worked examples *)

Definition toy_gauss (st : Z) : Qc * Z :=
  (Q2Qc (((st mod 7) - 3) # 100), ((5 * st + 3) mod 101)%Z).

Definition toy_rng : RandomState :=
  {| rng := Z; seed := fun s => (s mod 101)%Z; gauss := toy_gauss |}.

(** Exact on the squares of rationals. *)
Definition toy_sqrtQ (q : Qc) : Qc :=
  Q2Qc (Z.sqrt (Qnum q) # Pos.sqrt (Qden q)).

Definition toy_sqrt : RealSqrt.
Proof.
  refine {| sqrtQ := toy_sqrtQ |}.
  intro q. unfold toy_sqrtQ, Qcle.
  change (0 <= Qred (Z.sqrt (Qnum q) # Pos.sqrt (Qden q)))%Q.
  rewrite Qred_correct. unfold Qle. cbn.
  rewrite Z.mul_1_r. apply Z.sqrt_nonneg.
Defined.

Definition percent (z : Z) : num := Fin (Q2Qc (z # 100)).

(** One asset that never moves. *)
Definition still_stats : ReturnStatistics := [(zero, zero)].

(** Two assets: (mean 1%, volatility 2%) and (mean -1%, volatility 3%). *)
Definition example_stats : ReturnStatistics :=
  [(percent 1, percent 2); (percent (-1), percent 3)].

(** An asset listed on the third day of the range next to one listed
    throughout; forward filling leaves the table as it is. *)
Definition late_listing : DataFrame :=
  [[NaN; NaN; of_Z 3; of_Z 6]; [of_Z 1; of_Z 2; of_Z 4; of_Z 8]].

(** Two assets over four days, without a missing price. *)
Definition four_days : DataFrame :=
  [[of_Z 100; of_Z 110; of_Z 99; of_Z 99]; [of_Z 1; of_Z 2; of_Z 4; of_Z 8]].


(** ** Notions used by the further properties *)

(** A statistic that is not a number. *)
Definition nan_statistic (p : num * num) : bool :=
  isnan (fst p) || isnan (snd p).

(** ** The simulation tab as the script runs it

    [run_analysis] keeps the numbers of the tab and the one exception it can
    raise.  Here the tab is followed statement by statement, with the
    progress bar it updates on the way.  The display of the other two tabs
    and the plots are not modelled. *)

(** What [st.progress] is given: a Python [int] or a [float]. *)
Inductive progress_value : Type :=
| ProgressInt (z : Z)
| ProgressFloat (x : num).

(** streamlit takes an [int] from 0 to 100 or a [float] from 0.0 to 1.0 and
    raises [StreamlitAPIException] on anything else. *)
Definition progress_accepts (v : progress_value) : bool :=
  match v with
  | ProgressInt z => (0 <=? z)%Z && (z <=? 100)%Z
  | ProgressFloat x => leb zero x && leb x one
  end.

Inductive app_exn : Type :=
| CoreError (e : exn)
| StreamlitAPIException.

(** What the tab ends with: the frame and the figures it shows, or the
    exception that reaches the handler of the script. *)
Inductive tab_outcome (A : Type) : Type :=
| Shown (a : A)
| Failed (e : app_exn).

Arguments Shown {A} a.
Arguments Failed {A} e.

Section Tab.

Context {RS : RandomState} {SQ : RealSqrt}.

(** The loop of the script with its index [i]: [n] runs are left out of
    [R], and every hundredth run reports [i / R] to the progress bar.  The
    values the bar accepted are logged in order.  ([i / R] is only evaluated
    inside the loop, hence with [R] positive.) *)
Fixpoint simulate_runs_reporting (stats : ReturnStatistics) (H : nat)
  (initial_investment : Z) (R n i : nat) (simulation_df : DataFrame)
  (st : rng) (log : list progress_value)
  : list progress_value * tab_outcome (DataFrame * rng) :=
  match n with
  | O => (log, Shown (simulation_df, st))
  | S n' =>
      match simulate_run stats H initial_investment st with
      | Raise e => (log, Failed (CoreError e))
      | Ok (path, st') =>
          let simulation_df' := simulation_df ++ [path] in
          if (i mod 100 =? 0)%nat then
            let v := ProgressFloat (div (of_nat i) (of_nat R)) in
            if progress_accepts v then
              simulate_runs_reporting stats H initial_investment R n' (S i)
                simulation_df' st' (log ++ [v])
            else (log, Failed StreamlitAPIException)
          else
            simulate_runs_reporting stats H initial_investment R n' (S i)
              simulation_df' st' log
      end
  end.

(** The tab, with the seed, the horizon and the number of runs as
    parameters: the seed is set, the last prices are taken, the statistics
    computed, the bar created at 0, the loop run, the bar set to 100, and the
    risk figures derived. *)
Definition monte_carlo_tab (s : Z) (H R : nat) (data returns : DataFrame)
  (initial_investment : Z) (ambient : rng)
  : list progress_value * tab_outcome (DataFrame * RiskMetrics) :=
  let st0 := seed s in
  match iloc_last data with
  | Raise e => ([], Failed (CoreError e))
  | Ok last_prices =>
      let stats := return_statistics returns in
      if progress_accepts (ProgressInt 0) then
        match simulate_runs_reporting stats H initial_investment R R 0 []
                st0 [ProgressInt 0] with
        | (log, Failed e) => (log, Failed e)
        | (log, Shown (simulation_df, _)) =>
            if progress_accepts (ProgressInt 100) then
              let log' := log ++ [ProgressInt 100] in
              match (ending_values <- iloc_last simulation_df;;
                     risk_metrics ending_values initial_investment) with
              | Raise e => (log', Failed (CoreError e))
              | Ok metrics => (log', Shown (simulation_df, metrics))
              end
            else (log, Failed StreamlitAPIException)
        end
      else ([], Failed StreamlitAPIException)
  end.

(** The script on a downloaded price table. *)
Definition script (data : DataFrame) (initial_investment : Z)
  (ambient : rng)
  : list progress_value * tab_outcome (DataFrame * RiskMetrics) :=
  let data := ffill data in
  let returns := daily_returns data in
  monte_carlo_tab 42 time_horizon num_simulations data returns
    initial_investment ambient.

End Tab.

(** The reports of a loop of [R] runs: [i / R] for every hundredth [i]. *)
Definition progress_reports (R : nat) : list progress_value :=
  map (fun i => ProgressFloat (div (of_nat i) (of_nat R)))
      (filter (fun i => (i mod 100 =? 0)%nat) (seq 0 R)).
(** ** Binary64 arithmetic

    A double is a rational of the form [m * 2^e] with [|m| < 2^53] and
    [-1074 <= e <= 971], or one of the special values.  Every arithmetic
    operation of the script returns the double nearest to the exact result,
    ties going to the even significand; an exact result of magnitude
    [2^1024 - 2^970] or more becomes an infinity (overflow) and one below
    [2^-1022] is rounded on the fixed grid of step [2^-1074] (gradual
    underflow, down to zero).  The sign of zero is not kept: [-0.0] and
    [0.0] are one number, as they are for [==], [<] and [>]. *)

Module Binary64.

Definition pow2 (e : Z) : Q := (2 ^ e)%Q.

(** The exponent [e] with [2^e <= q < 2^(e+1)], for [q > 0]. *)
Definition ilog2 (q : Q) : Z :=
  let e := (Z.log2 (Qnum q) - Z.log2 (Zpos (Qden q)))%Z in
  if Qle_bool (pow2 e) q then e else (e - 1)%Z.

(** The nearest integer, ties to even. *)
Definition round_half_even (q : Q) : Z :=
  let f := Qfloor q in
  match (q - inject_Z f ?= 1 # 2)%Q with
  | Lt => f
  | Gt => (f + 1)%Z
  | Eq => if Z.even f then f else (f + 1)%Z
  end.

(** The exponent of the last place of the doubles around [q > 0]. *)
Definition ulp_exponent (q : Q) : Z := Z.max (ilog2 q - 52) (-1074).

(** The nearest number with 53 significant bits on the grid of [q > 0]. *)
Definition nearest (q : Q) : Q :=
  (inject_Z (round_half_even (q / pow2 (ulp_exponent q)))
   * pow2 (ulp_exponent q))%Q.

Definition round_pos (q : Q) : num :=
  let y := nearest q in
  if Qle_bool (pow2 1024) y then PInf else Fin (Q2Qc y).

(** The double that an exact result is rounded to. *)
Definition rnd64 (x : num) : num :=
  match x with
  | Fin q =>
      match (q ?= 0)%Qc with
      | Eq => x
      | Gt => round_pos q
      | Lt => opp (round_pos (- q))
      end
  | _ => x
  end.

(** [x] is a double. *)
Definition is_double (x : num) : bool :=
  match x with
  | Fin _ => eqb (rnd64 x) x
  | _ => true
  end.

(** A positive rational in the range of the normal doubles, a factor two
    away from overflow. *)
Definition Q_in_normal_range (q : Q) : bool :=
  Qle_bool (pow2 (-1022)) q && Qle_bool q (pow2 1022).

(** An exact result on which neither underflow nor overflow acts, even
    when it is doubled: zero, a special value, or a magnitude from
    [2^-1022], the smallest normal double, to [2^1022]. *)
Definition in_normal_range (x : num) : bool :=
  match x with
  | Fin q =>
      match (q ?= 0)%Qc with
      | Eq => true
      | Gt => Q_in_normal_range q
      | Lt => Q_in_normal_range (- q)
      end
  | _ => true
  end.

(** The unit roundoff. *)
Definition u : Q := pow2 (-53).

End Binary64.

Import Binary64.

(** ** The IEEE-754 operations of the standard library, for comparison

    [SpecFloat] specifies the binary64 operations on sign, significand and
    exponent, and [PrimFloat] runs them on the processor.  A double is sent
    there and back as follows; both zeros come back as zero. *)

Definition of_spec_float (x : SpecFloat.spec_float) : num :=
  match x with
  | SpecFloat.S754_zero _ => zero
  | SpecFloat.S754_infinity false => PInf
  | SpecFloat.S754_infinity true => NInf
  | SpecFloat.S754_nan => NaN
  | SpecFloat.S754_finite s m e =>
      Fin (Q2Qc ((if s then -1 else 1) * inject_Z (Zpos m) * pow2 e))
  end.

Definition to_spec_float (x : num) : SpecFloat.spec_float :=
  match x with
  | NaN => SpecFloat.S754_nan
  | PInf => SpecFloat.S754_infinity false
  | NInf => SpecFloat.S754_infinity true
  | Fin q =>
      SpecFloat.binary_normalize 53 1024 (Qnum q)
        (- Z.log2 (Zpos (Qden q))) false
  end.

(** The same number, or NaN on both sides. *)
Definition same (x y : num) : bool := eqb x y || (isnan x && isnan y).

(** Rounding the exact result agrees with an IEEE-754 operation on a pair
    of doubles. *)
Definition agrees (exact : num -> num -> num)
  (ieee : SpecFloat.spec_float -> SpecFloat.spec_float
          -> SpecFloat.spec_float)
  (p : num * num) : bool :=
  same (rnd64 (exact (fst p) (snd p)))
       (of_spec_float (ieee (to_spec_float (fst p)) (to_spec_float (snd p)))).

(** An operation of the processor, on [spec_float]. *)
Definition on_processor
  (op : PrimFloat.float -> PrimFloat.float -> PrimFloat.float)
  (x y : SpecFloat.spec_float) : SpecFloat.spec_float :=
  FloatOps.Prim2SF (op (FloatOps.SF2Prim x) (FloatOps.SF2Prim y)).

(** Doubles of every kind: zero, ordinary numbers, numbers that are not
    binary fractions, the largest double, the smallest normal and subnormal
    doubles, the infinities and NaN. *)
Definition sample_doubles : list num :=
  map rnd64
    [zero; one; Fin (Q2Qc (5 # 100)); of_Z 10000; of_Z (107 * 10 ^ 299);
     Fin (Q2Qc (3 # 2 ^ 53) - 1); Fin (Q2Qc (-7 # 3));
     Fin (Q2Qc (95 * pow2 (-1073))); Fin (Q2Qc (pow2 1024 - pow2 971));
     PInf; NaN].

(** ** The compounding loop and the risk figures, every operation rounded

    The same statements as [portfolio_path], [np_percentile] and
    [risk_metrics], with the result of each arithmetic operation passed
    through [round].  With [rnd64] for [round] this is the arithmetic of the
    script; with the identity it is exact arithmetic.  Comparisons, sorting
    and indexing do not round.  The portfolio daily returns of a run are
    taken as they come out of [np.random.normal] and [np.mean]. *)

Module Rounded.

Section Rounding.

Variable round : num -> num.

Definition add (x y : num) : num := round (Num.add x y).
Definition sub (x y : num) : num := round (Num.sub x y).
Definition mul (x y : num) : num := round (Num.mul x y).
Definition div (x y : num) : num := round (Num.div x y).

(** A Python [int] that meets a [float64] is converted to the nearest
    double. *)
Definition of_Z (z : Z) : num := round (Num.of_Z z).

(** The inner loop:
    [current_value = current_value * (1 + r); portfolio_path.append(current_value)]. *)
Fixpoint portfolio_path (current_value : num) (rs : list num) : Series :=
  match rs with
  | [] => []
  | r :: rs' =>
      let current_value' := mul current_value (add one r) in
      current_value' :: portfolio_path current_value' rs'
  end.

(** [simulation_df]: one column per run, from the portfolio daily returns
    of the runs. *)
Definition simulation_df (initial_investment : Z)
  (returns_of_runs : list (list num)) : DataFrame :=
  map (portfolio_path (of_Z initial_investment)) returns_of_runs.

(** numpy's [_lerp]. *)
Definition lerp (a b t : num) : num :=
  let diff_b_a := sub b a in
  if geb t (Fin (Q2Qc (1 # 2))) then sub b (mul diff_b_a (sub one t))
  else add a (mul diff_b_a t).

(** [np.percentile(a, q)] with the default method, [linear]. *)
Definition np_percentile (a : list num) (q : Z) : result num :=
  if negb ((0 <=? q)%Z && (q <=? 100)%Z) then Raise ValueError
  else
    match a with
    | [] => Raise IndexError
    | _ =>
        let arr := np_sort a in
        let n := length arr in
        let quantile := div (of_Z q) (of_Z 100) in
        let virtual_index := mul (of_Z (Z.of_nat n - 1)) quantile in
        let '(previous_index, next_index) := get_indexes virtual_index n in
        let gamma := sub virtual_index (of_Z previous_index) in
        let r := lerp (getitem arr previous_index) (getitem arr next_index)
                   gamma in
        Ok (if isnan (getitem arr (-1)) then NaN else r)
    end.

Definition risk_metrics (ending_values : Series) (initial_investment : Z)
  : result RiskMetrics :=
  p5 <- np_percentile ending_values 5;;
  let VaR := sub (of_Z initial_investment) p5 in
  Ok {| future_value_95 := p5; VaR_95 := VaR; verdict := classify VaR |}.

(** The risk figures of a frame:
    [ending_values = simulation_df.iloc[-1]] and the lines after it. *)
Definition summarise (simulation_df : DataFrame) (initial_investment : Z)
  : result RiskMetrics :=
  ending_values <- iloc_last simulation_df;;
  risk_metrics ending_values initial_investment.

(** The exact results that the loop rounds, in the order in which it
    computes them: for each day the sum [1 + r] and the product
    [current_value * (1 + r)]. *)
Fixpoint loop_operations (current_value : num) (rs : list num) : list num :=
  match rs with
  | [] => []
  | r :: rs' =>
      let factor := Num.add one r in
      let product := Num.mul current_value (round factor) in
      factor :: product :: loop_operations (round product) rs'
  end.

(** The products among them: the results that depend on the investment. *)
Fixpoint loop_products (current_value : num) (rs : list num) : list num :=
  match rs with
  | [] => []
  | r :: rs' =>
      let product := Num.mul current_value (add one r) in
      product :: loop_products (round product) rs'
  end.

(** The exact results that [_lerp] rounds. *)
Definition lerp_operations (a b t : num) : list num :=
  let diff_b_a := sub b a in
  if geb t (Fin (Q2Qc (1 # 2))) then
    [Num.sub b a; Num.mul diff_b_a (sub one t);
     Num.sub b (mul diff_b_a (sub one t))]
  else
    [Num.sub b a; Num.mul diff_b_a t; Num.add a (mul diff_b_a t)].

(** The exact results that depend on the investment among those that the
    risk figures round: the three operations of [_lerp] and the final
    subtraction. *)
Definition risk_operations (ending_values : Series) (initial_investment : Z)
  : list num :=
  let arr := np_sort ending_values in
  let n := length arr in
  let quantile := div (of_Z 5) (of_Z 100) in
  let virtual_index := mul (of_Z (Z.of_nat n - 1)) quantile in
  let '(previous_index, next_index) := get_indexes virtual_index n in
  let gamma := sub virtual_index (of_Z previous_index) in
  let a := getitem arr previous_index in
  let b := getitem arr next_index in
  let p5 := if isnan (getitem arr (-1)) then NaN else lerp a b gamma in
  lerp_operations a b gamma ++ [Num.sub (of_Z initial_investment) p5].

End Rounding.

End Rounded.

(** ** Notions used to state the properties of the rounded loop *)

(** [value] is [exact] up to [k] roundings: their ratio lies between
    [(1 - u)^k] and [(1 + u)^k], so the relative error is at most
    [(1 + u)^k - 1], about [k * 2^-53]. *)
Definition within_roundings (k : nat) (value exact : Q) : Prop :=
  exists rho : Q,
    (value == exact * rho)%Q /\
    ((1 - u) ^ Z.of_nat k <= rho)%Q /\ (rho <= (1 + u) ^ Z.of_nat k)%Q.

(** The closed form of the specification for day [t]: the investment
    times the product of [1 + r] over the days up to [t], in exact
    arithmetic. *)
Definition closed_form (initial_investment : Z) (returns : list num)
  (t : nat) : num :=
  mul (of_Z initial_investment) (prod (map (add one) (firstn (S t) returns))).

(** The doubles nearest to 5% and to 2%, as numpy holds them. *)
Definition five_percent : num := rnd64 (percent 5).
Definition two_percent : num := rnd64 (percent 2).

(** A portfolio daily return that is a finite double above -100% (and at
    most [2^1022]). *)
Definition loses_less_than_all (r : num) : bool :=
  isfinite r && is_double r && ltb (of_Z (-1)) r
  && leb r (Fin (Q2Qc (pow2 1022))).


Definition collapse : num := Fin (Q2Qc (3 # 2 ^ 53) - 1).

(** * Properties *)

(** ** Arithmetic of the extended rationals *)

Lemma Qc_ltb_lt a b : Qc_ltb a b = true <-> (a < b)%Qc.
Proof.
  unfold Qc_ltb. rewrite Qclt_alt. destruct (a ?= b)%Qc; split; congruence.
Qed.

Lemma Qc_leb_le a b : Qc_leb a b = true <-> (a <= b)%Qc.
Proof.
  unfold Qc_leb. rewrite Qcle_alt. destruct (a ?= b)%Qc; split; congruence.
Qed.

Lemma Qc_is_zero_eq q : Qc_is_zero q = true <-> q = 0%Qc.
Proof.
  unfold Qc_is_zero. rewrite Qceq_alt. destruct (q ?= 0)%Qc; split; congruence.
Qed.

Lemma Qc_ltb_false a b : Qc_ltb a b = false <-> (b <= a)%Qc.
Proof.
  split; intro E.
  - apply Qcnot_lt_le. intro L. apply Qc_ltb_lt in L. congruence.
  - destruct (Qc_ltb a b) eqn:L; trivial.
    apply Qc_ltb_lt in L. now apply Qcle_not_lt in E.
Qed.

Lemma Qc_leb_false a b : Qc_leb a b = false <-> (b < a)%Qc.
Proof.
  split; intro E.
  - apply Qcnot_le_lt. intro L. apply Qc_leb_le in L. congruence.
  - destruct (Qc_leb a b) eqn:L; trivial.
    apply Qc_leb_le in L. now apply Qclt_not_le in E.
Qed.

(** Statements on [Qc] are sent to [Q], where [lra] decides them. *)
Ltac qc2q :=
  unfold Qclt, Qcle, Qcdiv, Qcminus, Qcinv, Qcplus, Qcmult, Qcopp, Q2Qc in *;
  cbn [this] in *; rewrite ?Qred_correct in *.

Lemma Qc_sign_spec (q : Qc) : (q ?= 0)%Qc = (Qnum q ?= 0)%Z.
Proof.
  unfold Qccompare, Qcompare. cbn. now rewrite Z.mul_1_r.
Qed.

Lemma Qc_sign_mul a b :
  (a * b ?= 0)%Qc =
  match (a ?= 0)%Qc, (b ?= 0)%Qc with
  | Eq, _ | _, Eq => Eq
  | Lt, Lt | Gt, Gt => Gt
  | _, _ => Lt
  end.
Proof.
  rewrite (Qc_sign_spec a), (Qc_sign_spec b).
  unfold Qccompare, Qcmult, Q2Qc. cbn [this].
  rewrite (Qcompare_comp _ _ (Qred_correct _) 0%Q 0%Q (Qeq_refl _)).
  unfold Qcompare. cbn. rewrite Z.mul_1_r.
  destruct (Qnum a), (Qnum b); reflexivity.
Qed.

Ltac sign_cases :=
  repeat match goal with
    | q : Qc |- _ =>
        lazymatch goal with
        | H : (q ?= 0)%Qc = _ |- _ => fail
        | _ => destruct (q ?= 0)%Qc eqn:?
        end
    end.

Ltac num_crush :=
  sign_cases;
  repeat (cbn; unfold inf_signed; rewrite ?Qc_sign_mul;
          repeat match goal with
            | H : (?q ?= 0)%Qc = _ |- _ => rewrite H
            end);
  cbn; try reflexivity; try congruence.

Lemma mul_assoc x y z : mul x (mul y z) = mul (mul x y) z.
Proof.
  destruct x as [a| | |], y as [b| | |], z as [c| | |];
    try (cbn; f_equal; apply Qcmult_assoc); num_crush.
Qed.

Lemma mul_one_l x : mul one x = x.
Proof.
  destruct x as [a| | |]; try reflexivity.
  cbn. f_equal. apply Qcmult_1_l.
Qed.

Lemma mul_one_r x : mul x one = x.
Proof.
  destruct x as [a| | |]; try reflexivity.
  cbn. f_equal. apply Qcmult_1_r.
Qed.

Lemma add_NaN_r x : add x NaN = NaN.
Proof. now destruct x. Qed.

Lemma mul_NaN_r x : mul x NaN = NaN.
Proof. now destruct x. Qed.

Lemma div_NaN_r x : div x NaN = NaN.
Proof. now destruct x. Qed.

Lemma of_Z_mul a b : of_Z (a * b) = mul (of_Z a) (of_Z b).
Proof.
  unfold of_Z. cbn. f_equal. apply Qc_is_canon. qc2q.
  now rewrite inject_Z_mult.
Qed.

Lemma of_nat_nonzero n : n <> 0%nat -> Qc_is_zero (Q2Qc (inject_Z (Z.of_nat n))) = false.
Proof.
  intro Hn. destruct (Qc_is_zero _) eqn:E; trivial.
  apply Qc_is_zero_eq in E. apply Q2Qc_eq_iff in E.
  unfold Qeq in E. cbn in E. lia.
Qed.

(** ** Doubling *)

Lemma two_sign : (Q2Qc (inject_Z 2) ?= 0)%Qc = Gt.
Proof. reflexivity. Qed.

Lemma double_Fin q : double (Fin q) = Fin (Q2Qc (inject_Z 2) * q)%Qc.
Proof. reflexivity. Qed.

Lemma double_add x y : double (add x y) = add (double x) (double y).
Proof.
  destruct x as [a| | |], y as [b| | |]; try reflexivity.
  cbn. f_equal. ring.
Qed.

Lemma double_opp x : double (opp x) = opp (double x).
Proof.
  destruct x as [a| | |]; try reflexivity.
  cbn. f_equal. ring.
Qed.

Lemma double_sub x y : double (sub x y) = sub (double x) (double y).
Proof. unfold sub. now rewrite double_add, double_opp. Qed.

Lemma double_mul x y : double (mul x y) = mul (double x) y.
Proof. unfold double. apply mul_assoc. Qed.

Lemma double_isnan x : isnan (double x) = isnan x.
Proof. now destruct x. Qed.

Lemma double_of_Z z : of_Z (2 * z) = double (of_Z z).
Proof. unfold double, two. apply of_Z_mul. Qed.

Lemma Qc_double_compare a b :
  (Q2Qc (inject_Z 2) * a ?= Q2Qc (inject_Z 2) * b)%Qc = (a ?= b)%Qc.
Proof.
  unfold Qccompare. qc2q.
  unfold Qcompare. cbn.
  change (match Qnum a with
          | 0 => 0 | Z.pos y' => Z.pos y'~0 | Z.neg y' => Z.neg y'~0
          end)%Z with (2 * Qnum a)%Z.
  change (match Qnum b with
          | 0 => 0 | Z.pos y' => Z.pos y'~0 | Z.neg y' => Z.neg y'~0
          end)%Z with (2 * Qnum b)%Z.
  rewrite <- !Z.mul_assoc. symmetry. apply Zmult_compare_compat_l. lia.
Qed.


(** ** The generator is threaded through the draws *)

Local Open Scope nat_scope.

Lemma last_nth {A} (l : list A) (d : A) : last l d = nth (length l - 1) l d.
Proof.
  induction l as [|a l IH]; [reflexivity|].
  destruct l as [|b l]; [reflexivity|].
  cbn [last length nth Nat.sub] in *. rewrite IH. now rewrite Nat.sub_0_r.
Qed.

Lemma last_map {A B} (f : A -> B) (l : list A) (d : A) :
  last (map f l) (f d) = f (last l d).
Proof.
  induction l as [|a l IH]; [reflexivity|].
  destruct l as [|b l]; [reflexivity|]. exact IH.
Qed.

Section SimulatorFacts.

Context {RS : RandomState}.

Lemma after_draws_add a b st :
  after_draws (a + b) st = after_draws b (after_draws a st).
Proof.
  revert st. induction a as [|a IH]; intro st; cbn; [reflexivity|apply IH].
Qed.

Lemma after_draws_S k st :
  after_draws (S k) st = snd (gauss (after_draws k st)).
Proof.
  replace (S k) with (k + 1)%nat by lia. now rewrite after_draws_add.
Qed.

Lemma draw_row_state stats st :
  snd (draw_row stats st) = after_draws (length stats) st.
Proof.
  revert st. induction stats as [|[loc scale] rest IH]; intro st; cbn.
  - reflexivity.
  - destruct (gauss st) as [g st1] eqn:Eg. cbn.
    specialize (IH st1). destruct (draw_row rest st1) as [xs st2]. cbn in *.
    exact IH.
Qed.

Lemma draw_row_length stats st :
  length (fst (draw_row stats st)) = length stats.
Proof.
  revert st. induction stats as [|[loc scale] rest IH]; intro st; cbn.
  - reflexivity.
  - destruct (gauss st) as [g st1]. specialize (IH st1).
    destruct (draw_row rest st1) as [xs st2]. cbn in *. now rewrite IH.
Qed.

(** Asset [n] of a row is its own mean plus its own volatility times the
    [n]-th draw made for the row. *)
Lemma draw_row_nth stats st n :
  n < length stats ->
  nth n (fst (draw_row stats st)) NaN =
  add (fst (nth n stats (NaN, NaN)))
      (mul (snd (nth n stats (NaN, NaN)))
           (Fin (fst (gauss (after_draws n st))))).
Proof.
  revert st n. induction stats as [|[loc scale] rest IH]; intros st n Hn.
  - cbn in Hn. lia.
  - cbn [draw_row]. destruct (gauss st) as [g st1] eqn:Eg.
    specialize (IH st1). destruct (draw_row rest st1) as [xs st2].
    destruct n as [|n].
    + cbn. now rewrite Eg.
    + cbn in Hn. cbn. rewrite Eg. cbn. apply IH. lia.
Qed.

Lemma draw_rows_state stats H st :
  snd (draw_rows stats H st) = after_draws (H * length stats) st.
Proof.
  revert st. induction H as [|h IH]; intro st; cbn.
  - reflexivity.
  - pose proof (draw_row_state stats st) as Er.
    destruct (draw_row stats st) as [row st1]. cbn in Er.
    specialize (IH st1). destruct (draw_rows stats h st1) as [rows st2].
    cbn in *. rewrite after_draws_add. now rewrite <- Er.
Qed.

Lemma draw_rows_length stats H st :
  length (fst (draw_rows stats H st)) = H.
Proof.
  revert st. induction H as [|h IH]; intro st; cbn.
  - reflexivity.
  - destruct (draw_row stats st) as [row st1]. specialize (IH st1).
    destruct (draw_rows stats h st1) as [rows st2]. cbn in *. now rewrite IH.
Qed.

(** Row [t] of the matrix is drawn after the [t * N] draws of the rows
    before it. *)
Lemma draw_rows_nth stats H st t :
  t < H ->
  nth t (fst (draw_rows stats H st)) [] =
  fst (draw_row stats (after_draws (t * length stats) st)).
Proof.
  revert st t. induction H as [|h IH]; intros st t Ht; [lia|].
  cbn [draw_rows]. pose proof (draw_row_state stats st) as Er.
  destruct (draw_row stats st) as [row st1] eqn:Erow. cbn in Er.
  specialize (IH st1). destruct (draw_rows stats h st1) as [rows st2].
  destruct t as [|t].
  - cbn. now rewrite Erow.
  - cbn [nth fst]. cbn [fst] in IH. rewrite IH by lia.
    cbn [Nat.mul]. rewrite after_draws_add. now rewrite Er.
Qed.

Lemma draw_rows_row_length stats H st row :
  In row (fst (draw_rows stats H st)) -> length row = length stats.
Proof.
  intro Hin. apply (In_nth _ _ []) in Hin. destruct Hin as (t & Ht & <-).
  rewrite draw_rows_length in Ht. rewrite draw_rows_nth by exact Ht.
  apply draw_row_length.
Qed.

(** ** The compounding loop *)

Lemma portfolio_path_length v rs : length (portfolio_path v rs) = length rs.
Proof.
  revert v. induction rs as [|r rs IH]; intro v; cbn; [reflexivity|].
  now rewrite IH.
Qed.

Lemma portfolio_path_step v rs t :
  t < length rs ->
  nth t (portfolio_path v rs) NaN =
  mul (match t with
       | O => v
       | S t' => nth t' (portfolio_path v rs) NaN
       end)
      (add one (nth t rs NaN)).
Proof.
  revert v t. induction rs as [|r rs IH]; intros v t Ht; [cbn in Ht; lia|].
  destruct t as [|t]; [reflexivity|].
  cbn in Ht. cbn [portfolio_path nth]. rewrite IH by lia.
  destruct t as [|t]; reflexivity.
Qed.

Lemma fold_left_mul_acc xs acc :
  fold_left mul xs acc = mul acc (fold_left mul xs one).
Proof.
  revert acc. induction xs as [|x xs IH]; intro acc; cbn [fold_left].
  - now rewrite mul_one_r.
  - rewrite IH, (IH (mul one x)), mul_one_l. apply eq_sym, mul_assoc.
Qed.

Lemma prod_cons x xs : prod (x :: xs) = mul x (prod xs).
Proof.
  unfold prod. cbn [fold_left]. rewrite fold_left_mul_acc.
  now rewrite mul_one_l.
Qed.

Lemma prod_snoc xs x : prod (xs ++ [x]) = mul (prod xs) x.
Proof. unfold prod. now rewrite fold_left_app. Qed.

(** In exact arithmetic the loop computes the closed form, on any list of
    returns. *)
Lemma portfolio_path_closed_form v rs t :
  t < length rs ->
  nth t (portfolio_path v rs) NaN =
  mul v (prod (map (add one) (firstn (S t) rs))).
Proof.
  revert v t. induction rs as [|r rs IH]; intros v t Ht; [cbn in Ht; lia|].
  cbn in Ht. destruct t as [|t].
  - cbn [portfolio_path nth firstn map]. unfold prod. cbn [fold_left].
    now rewrite mul_one_l.
  - cbn [portfolio_path nth]. rewrite IH by lia.
    change (firstn (S (S t)) (r :: rs)) with (r :: firstn (S t) rs).
    cbn [map]. rewrite prod_cons. apply eq_sym, mul_assoc.
Qed.

(** ** The outer loop *)

Lemma simulate_run_ok stats H V0 st :
  scale_ok stats = true ->
  simulate_run stats H V0 st =
  Ok (portfolio_path (of_Z V0)
        (portfolio_daily_returns (fst (draw_rows stats H st))),
      after_draws (H * length stats) st).
Proof.
  intro Hok. unfold simulate_run, normal. rewrite Hok. cbn.
  rewrite <- draw_rows_state. now destruct (draw_rows stats H st).
Qed.

Lemma simulate_run_raise stats H V0 st :
  scale_ok stats = false -> simulate_run stats H V0 st = Raise ValueError.
Proof. intro Hok. unfold simulate_run, normal. now rewrite Hok. Qed.

Lemma paths_shift stats H V0 st R :
  map (fun r =>
         portfolio_path (of_Z V0)
           (portfolio_daily_returns
              (fst (draw_rows stats H
                      (after_draws (r * (H * length stats)) st)))))
      (seq 0 (S R)) =
  portfolio_path (of_Z V0) (portfolio_daily_returns (fst (draw_rows stats H st)))
  :: map (fun r =>
            portfolio_path (of_Z V0)
              (portfolio_daily_returns
                 (fst (draw_rows stats H
                         (after_draws (r * (H * length stats))
                            (after_draws (H * length stats) st))))))
       (seq 0 R).
Proof.
  cbn [seq map]. f_equal.
  rewrite <- seq_shift, map_map. apply map_ext. intro r.
  cbn [Nat.mul]. now rewrite after_draws_add.
Qed.

(** [R] turns of the loop started in state [st] append [R] paths, the
    [r]-th drawn from the state reached after [r * (H * N)] draws. *)
Lemma simulate_runs_ok stats H V0 R df st :
  scale_ok stats = true ->
  simulate_runs stats H V0 R df st =
  Ok (df ++ map (fun r =>
                   portfolio_path (of_Z V0)
                     (portfolio_daily_returns
                        (fst (draw_rows stats H
                                (after_draws (r * (H * length stats)) st)))))
              (seq 0 R),
      after_draws (R * (H * length stats)) st).
Proof.
  intro Hok. revert df st. induction R as [|R IH]; intros df st.
  - cbn. now rewrite app_nil_r.
  - cbn [simulate_runs]. rewrite simulate_run_ok by exact Hok. cbn [bind].
    rewrite IH, paths_shift, <- app_assoc. cbn [app Nat.mul].
    now rewrite after_draws_add.
Qed.

Lemma simulate_runs_raise stats H V0 R df st :
  scale_ok stats = false ->
  simulate_runs stats H V0 (S R) df st = Raise ValueError.
Proof.
  intro Hok. cbn [simulate_runs]. now rewrite simulate_run_raise.
Qed.

Lemma monte_carlo_ok s stats H R V0 amb :
  scale_ok stats = true ->
  monte_carlo s stats H R V0 amb =
  Ok (map (path_of_run s stats H V0) (seq 0 R),
      after_draws (R * (H * length stats)) (seed s)).
Proof.
  intro Hok. unfold monte_carlo. rewrite simulate_runs_ok by exact Hok.
  reflexivity.
Qed.

Lemma portfolio_returns_length s stats H r :
  length (portfolio_returns_of_run s stats H r) = H.
Proof.
  unfold portfolio_returns_of_run, portfolio_daily_returns,
    random_returns_of_run.
  now rewrite length_map, draw_rows_length.
Qed.

Lemma portfolio_returns_nth s stats H r t :
  t < H ->
  nth t (portfolio_returns_of_run s stats H r) NaN =
  np_mean (nth t (random_returns_of_run s stats H r) []).
Proof.
  intro Ht. unfold portfolio_returns_of_run, portfolio_daily_returns.
  rewrite (nth_indep _ NaN (np_mean [])).
  - apply map_nth.
  - unfold random_returns_of_run. now rewrite length_map, draw_rows_length.
Qed.

Lemma path_of_run_length s stats H V0 r :
  length (path_of_run s stats H V0 r) = H.
Proof.
  unfold path_of_run, portfolio_returns_of_run, portfolio_daily_returns,
    random_returns_of_run.
  now rewrite portfolio_path_length, length_map, draw_rows_length.
Qed.

Lemma value_at_path s stats H V0 R r t :
  r < R ->
  value_at (map (path_of_run s stats H V0) (seq 0 R)) r t =
  nth t (path_of_run s stats H V0 r) NaN.
Proof.
  intro Hr. unfold value_at.
  rewrite (nth_indep _ [] (path_of_run s stats H V0 0))
    by (now rewrite length_map, length_seq).
  rewrite map_nth, seq_nth by exact Hr. reflexivity.
Qed.

End SimulatorFacts.

(** ** The simulated paths *)

(** C1. Every simulated value is the value of the day before (the initial
    investment on day 0) times one plus the unweighted mean of that day's row
    of [random_returns]; the row has one entry per asset, and the entry of
    asset [n] is the asset's mean plus its volatility times a draw of its own
    of the generator. *)
Theorem compounding_recurrence {RS : RandomState} (s : Z)
  (stats : ReturnStatistics) (H R : nat) (initial_investment : Z)
  (ambient : rng) :
  scale_ok stats = true ->
  exists simulation_df st,
    monte_carlo s stats H R initial_investment ambient
    = Ok (simulation_df, st) /\
    forall r t, r < R -> t < H ->
      let row := nth t (random_returns_of_run s stats H r) [] in
      value_at simulation_df r t =
        mul (match t with
             | O => of_Z initial_investment
             | S t' => value_at simulation_df r t'
             end)
            (add one (div (sum row) (of_nat (length stats)))) /\
      length row = length stats /\
      forall n, n < length stats ->
        nth n row NaN =
        add (fst (nth n stats (NaN, NaN)))
            (mul (snd (nth n stats (NaN, NaN)))
               (Fin (fst (gauss (after_draws (t * length stats + n)
                                   (run_state s stats H r)))))).
Proof.
  intro Hok. eexists _, _. split; [apply monte_carlo_ok, Hok|].
  intros r t Hr Ht row.
  assert (Erow : row = fst (draw_row stats
                              (after_draws (t * length stats)
                                 (run_state s stats H r)))).
  { unfold row, random_returns_of_run. now apply draw_rows_nth. }
  assert (Elen : length row = length stats).
  { rewrite Erow. apply draw_row_length. }
  split; [|split].
  - rewrite <- Elen. fold (np_mean row). unfold row.
    rewrite <- portfolio_returns_nth by exact Ht.
    destruct t as [|t']; rewrite !value_at_path by exact Hr;
      unfold path_of_run; rewrite portfolio_path_step
        by (now rewrite portfolio_returns_length); reflexivity.
  - exact Elen.
  - intros n Hn. rewrite Erow, draw_row_nth by exact Hn.
    now rewrite after_draws_add.
Qed.

(** The theorem at two assets, three days and two runs. *)
Lemma compounding_recurrence_witness :
  exists simulation_df st,
    @monte_carlo toy_rng 42 example_stats 3 2 10000 0%Z
    = Ok (simulation_df, st) /\
    forall r t, r < 2 -> t < 3 ->
      let row := nth t (@random_returns_of_run toy_rng 42 example_stats 3 r) [] in
      value_at simulation_df r t =
        mul (match t with
             | O => of_Z 10000
             | S t' => value_at simulation_df r t'
             end)
            (add one (div (sum row) (of_nat (length example_stats)))) /\
      length row = length example_stats /\
      forall n, n < length example_stats ->
        nth n row NaN =
        add (fst (nth n example_stats (NaN, NaN)))
            (mul (snd (nth n example_stats (NaN, NaN)))
               (Fin (fst (@gauss toy_rng
                            (@after_draws toy_rng
                               (t * length example_stats + n)
                               (@run_state toy_rng 42 example_stats 3 r)))))).
Proof.
  exact (@compounding_recurrence toy_rng 42 example_stats 3 2 10000 0%Z
           eq_refl).
Defined.

(** C7. The ensemble does not depend on the state the generator was in
    before: the seed is installed first.  It is installed once: run 0 starts
    in the seeded state and every run starts where the run before it left the
    generator, [H * N] draws further; the ensemble is made of the paths drawn
    from these states. *)
Theorem seeded_once_determinism {RS : RandomState} (s : Z)
  (stats : ReturnStatistics) (H R : nat) (initial_investment : Z)
  (ambient ambient' : rng) :
  monte_carlo s stats H R initial_investment ambient
  = monte_carlo s stats H R initial_investment ambient' /\
  run_state s stats H 0 = seed s /\
  (forall r, run_state s stats H (S r)
             = snd (draw_rows stats H (run_state s stats H r))) /\
  (scale_ok stats = true ->
   monte_carlo s stats H R initial_investment ambient
   = Ok (map (path_of_run s stats H initial_investment) (seq 0 R),
         run_state s stats H R)).
Proof.
  split; [reflexivity|]. split; [reflexivity|]. split.
  - intro r. rewrite draw_rows_state. unfold run_state.
    cbn [Nat.mul]. rewrite <- after_draws_add. f_equal. lia.
  - intro Hok. now apply monte_carlo_ok.
Qed.

(** ** Doubling *)

Lemma double_NaN : double NaN = NaN.
Proof. reflexivity. Qed.

Lemma double_sort_leb x y : sort_leb (double x) (double y) = sort_leb x y.
Proof.
  destruct x as [a| | |], y as [b| | |]; try reflexivity.
  cbn. unfold Qc_leb. now rewrite Qc_double_compare.
Qed.

Lemma double_insert_sorted x l :
  insert_sorted (double x) (map double l) = map double (insert_sorted x l).
Proof.
  induction l as [|y l IH]; [reflexivity|].
  cbn [map insert_sorted]. rewrite double_sort_leb.
  destruct (sort_leb x y); [reflexivity|]. cbn [map]. now rewrite IH.
Qed.

Lemma double_np_sort l : np_sort (map double l) = map double (np_sort l).
Proof.
  induction l as [|x l IH]; [reflexivity|].
  cbn [map np_sort fold_right]. fold (np_sort (map double l)) (np_sort l).
  rewrite IH. apply double_insert_sorted.
Qed.

Lemma double_getitem arr i :
  getitem (map double arr) i = double (getitem arr i).
Proof.
  unfold getitem. rewrite length_map, <- double_NaN at 1. apply map_nth.
Qed.

Lemma double_gtb_zero x : gtb (double x) zero = gtb x zero.
Proof.
  destruct x as [a| | |]; try reflexivity.
  cbn. unfold Qc_ltb.
  change 0%Qc with (Q2Qc (inject_Z 2) * 0)%Qc at 1.
  now rewrite Qc_double_compare.
Qed.

Lemma double_abs x : abs (double x) = double (abs x).
Proof.
  destruct x as [a| | |]; try reflexivity.
  cbn. unfold Qc_ltb.
  change 0%Qc with (Q2Qc (inject_Z 2) * 0)%Qc at 1.
  rewrite Qc_double_compare.
  destruct (a ?= 0)%Qc; cbn; f_equal; ring.
Qed.

Lemma double_classify v : classify (double v) = double_scenario (classify v).
Proof.
  unfold classify. rewrite double_gtb_zero.
  destruct (gtb v zero); cbn [double_scenario]; [reflexivity|].
  now rewrite double_abs.
Qed.

Lemma double_iloc_last df :
  iloc_last (map (map double) df) =
  (row <- iloc_last df;; Ok (map double row)).
Proof.
  unfold iloc_last.
  assert (E : nrows (map (map double) df) = nrows df).
  { destruct df; cbn; [reflexivity|apply length_map]. }
  rewrite E. destruct (nrows df =? 0); [reflexivity|]. cbn [bind].
  f_equal. rewrite !map_map. apply map_ext. intro c.
  rewrite <- double_NaN at 1. apply last_map.
Qed.

Lemma Qc_lt_sub_pos a b : (b < a)%Qc -> (0 < a + - b)%Qc.
Proof. intro L. now apply Qclt_minus_iff in L. Qed.

Lemma Qc_le_sub_nonpos a b : (a <= b)%Qc -> (a + - b <= 0)%Qc.
Proof. intro L. qc2q. lra. Qed.

Lemma np_percentile_ok a q :
  a <> [] -> (0 <= q <= 100)%Z -> exists p, np_percentile a q = Ok p.
Proof.
  intros Ha Hq. unfold np_percentile.
  replace ((0 <=? q)%Z && (q <=? 100)%Z) with true
    by (symmetry; apply andb_true_iff; split; apply Z.leb_le; lia).
  cbn [negb]. destruct a as [|x a]; [congruence|].
  destruct (get_indexes _ _). eexists. reflexivity.
Qed.

(** C3. The Value-at-Risk is the initial investment minus the 5th
    percentile.  When the percentile is below the investment it is positive
    and the verdict is the loss scenario; when the percentile is at least the
    investment it is non-positive and the verdict is the gain scenario, with
    profit [|VaR|]; at [VaR = 0] the verdict is the gain scenario. *)
Theorem VaR_sign_consistency (ending_values : Series)
  (initial_investment : Z) :
  ending_values <> [] ->
  exists metrics,
    risk_metrics ending_values initial_investment = Ok metrics /\
    np_percentile ending_values 5 = Ok (future_value_95 metrics) /\
    VaR_95 metrics
    = sub (of_Z initial_investment) (future_value_95 metrics) /\
    (ltb (future_value_95 metrics) (of_Z initial_investment) = true ->
     gtb (VaR_95 metrics) zero = true /\
     verdict metrics = RiskWarning (VaR_95 metrics)) /\
    (geb (future_value_95 metrics) (of_Z initial_investment) = true ->
     leb (VaR_95 metrics) zero = true /\
     verdict metrics = SafeHarbor (abs (VaR_95 metrics))) /\
    (VaR_95 metrics = zero -> verdict metrics = SafeHarbor zero).
Proof.
  intro Hne.
  destruct (np_percentile_ok (q := 5) Hne) as [p5 Hp]; [lia|].
  unfold risk_metrics. rewrite Hp. cbn [bind]. eexists. split; [reflexivity|].
  cbn [future_value_95 VaR_95 verdict].
  split; [reflexivity|]. split; [reflexivity|].
  unfold classify, gtb, geb, of_Z.
  set (v := Q2Qc (inject_Z initial_investment)).
  split; [|split].
  - destruct p5 as [b| | |]; cbn; try discriminate.
    + intro L. apply Qc_ltb_lt, Qc_lt_sub_pos, Qc_ltb_lt in L.
      now rewrite L.
    + now intros _.
  - destruct p5 as [b| | |]; cbn; try discriminate.
    + intro L. apply Qc_leb_le in L.
      pose proof (Qc_le_sub_nonpos L) as L'.
      assert (G : Qc_ltb 0 (v + - b) = false) by now apply Qc_ltb_false.
      rewrite G. split; [now apply Qc_leb_le|reflexivity].
    + now intros _.
  - intros ->. reflexivity.
Qed.

Lemma VaR_sign_consistency_witness :
  exists metrics,
    risk_metrics [of_Z 9000; of_Z 12000; of_Z 9500] 10000 = Ok metrics /\
    np_percentile [of_Z 9000; of_Z 12000; of_Z 9500] 5
    = Ok (future_value_95 metrics) /\
    VaR_95 metrics = sub (of_Z 10000) (future_value_95 metrics) /\
    (ltb (future_value_95 metrics) (of_Z 10000) = true ->
     gtb (VaR_95 metrics) zero = true /\
     verdict metrics = RiskWarning (VaR_95 metrics)) /\
    (geb (future_value_95 metrics) (of_Z 10000) = true ->
     leb (VaR_95 metrics) zero = true /\
     verdict metrics = SafeHarbor (abs (VaR_95 metrics))) /\
    (VaR_95 metrics = zero -> verdict metrics = SafeHarbor zero).
Proof.
  apply (@VaR_sign_consistency [of_Z 9000; of_Z 12000; of_Z 9500] 10000).
  discriminate.
Defined.

(** ** Finite numbers *)



(** ** The percentile *)

Lemma insert_Qc_perm x l : Permutation (x :: l) (insert_Qc x l).
Proof.
  induction l as [|y l IH]; cbn; [reflexivity|].
  destruct (Qc_leb x y); [reflexivity|].
  rewrite perm_swap. now apply perm_skip.
Qed.

Lemma sort_Qc_perm l : Permutation l (sort_Qc l).
Proof.
  induction l as [|x l IH]; cbn; [constructor|].
  rewrite <- insert_Qc_perm. now apply perm_skip.
Qed.

Lemma sort_Qc_length l : length (sort_Qc l) = length l.
Proof. apply eq_sym, Permutation_length, sort_Qc_perm. Qed.

Lemma insert_Qc_sorted x l :
  Sorted Qcle l -> Sorted Qcle (insert_Qc x l).
Proof.
  induction 1 as [|y l Hl IH Hy]; cbn; [repeat constructor|].
  destruct (Qc_leb x y) eqn:E.
  - apply Qc_leb_le in E.
    constructor; [constructor; assumption|constructor; assumption].
  - apply Qc_leb_false, Qclt_le_weak in E. constructor; [exact IH|].
    destruct l as [|z l]; cbn; [now constructor|].
    destruct (Qc_leb x z); constructor; trivial. now inversion Hy.
Qed.

Lemma sort_Qc_sorted l : Sorted Qcle (sort_Qc l).
Proof.
  induction l as [|x l IH]; cbn; [constructor|]. now apply insert_Qc_sorted.
Qed.

Lemma insert_sorted_Fin x l :
  insert_sorted (Fin x) (map Fin l) = map Fin (insert_Qc x l).
Proof.
  induction l as [|y l IH]; [reflexivity|].
  cbn [map insert_sorted insert_Qc sort_leb leb].
  destruct (Qc_leb x y); [reflexivity|]. cbn [map]. now rewrite IH.
Qed.

Lemma np_sort_Fin l : np_sort (map Fin l) = map Fin (sort_Qc l).
Proof.
  induction l as [|x l IH]; [reflexivity|].
  cbn [map np_sort sort_Qc fold_right].
  fold (np_sort (map Fin l)) (sort_Qc l). rewrite IH.
  apply insert_sorted_Fin.
Qed.

Lemma getitem_Fin l (i : Z) :
  (0 <= i < Z.of_nat (length l))%Z ->
  getitem (map Fin l) i = Fin (nth (Z.to_nat i) l 0%Qc).
Proof.
  intro Hi. unfold getitem.
  replace (i <? 0)%Z with false by (symmetry; apply Z.ltb_ge; lia).
  rewrite (nth_indep _ NaN (Fin 0%Qc)) by (rewrite length_map; lia).
  apply map_nth.
Qed.

Lemma getitem_Fin_last l :
  l <> [] ->
  getitem (map Fin l) (-1) = Fin (nth (length l - 1) l 0%Qc).
Proof.
  intro Hne. unfold getitem. rewrite length_map.
  assert (0 < length l) by (destruct l; [congruence|cbn; lia]).
  cbn [Z.ltb Z.compare].
  replace (Z.to_nat (Z.of_nat (length l) + -1)) with (length l - 1) by lia.
  rewrite (nth_indep _ NaN (Fin 0%Qc)) by (rewrite length_map; lia).
  apply map_nth.
Qed.

Lemma lerp_Fin a b g :
  lerp (Fin a) (Fin b) (Fin g) = Fin (a + (b - a) * g)%Qc.
Proof.
  unfold lerp. destruct (geb _ _); cbn; f_equal; ring.
Qed.

Lemma quantile_5 : div (of_Z 5) (of_Z 100) = Fin (Q2Qc (5 # 100)).
Proof.
  unfold div, of_Z. replace (Qc_is_zero (Q2Qc (inject_Z 100))) with false
    by reflexivity.
  apply (f_equal Fin), Qc_is_canon. reflexivity.
Qed.

Lemma ceiling_cases (x : Q) :
  Qceiling x = Qfloor x /\ x == inject_Z (Qfloor x) \/
  Qceiling x = (Qfloor x + 1)%Z.
Proof.
  pose proof (Qfloor_le x) as F1. pose proof (Qlt_floor x) as F2.
  pose proof (Qle_ceiling x) as C1. pose proof (Qceiling_lt x) as C2.
  assert (L1 : (Qceiling x - 1 < Qfloor x + 1)%Z).
  { rewrite Zlt_Qlt. eapply Qlt_trans; eassumption. }
  assert (L2 : (Qfloor x <= Qceiling x)%Z).
  { rewrite Zle_Qle. eapply Qle_trans; eassumption. }
  destruct (Z.eq_dec (Qceiling x) (Qfloor x)) as [E|E].
  - left. split; [exact E|]. rewrite E in C1. now apply Qle_antisym.
  - right. lia.
Qed.

(** The virtual index of the 5th percentile among [n] values. *)
Lemma rank_bounds (n : nat) :
  let rank := (Q2Qc (5 # 100) * Q2Qc (inject_Z (Z.of_nat n - 1)))%Qc in
  2 <= n ->
  (0 <= rank)%Qc /\ (rank < Q2Qc (inject_Z (Z.of_nat n - 1)))%Qc /\
  (0 <= Qfloor rank < Z.of_nat n - 1)%Z.
Proof.
  intros rank Hn.
  assert (P : (1 <= inject_Z (Z.of_nat n - 1))%Q).
  { change 1%Q with (inject_Z 1). rewrite <- Zle_Qle. lia. }
  assert (R0 : (0 <= rank)%Qc /\ (rank < Q2Qc (inject_Z (Z.of_nat n - 1)))%Qc).
  { unfold rank. qc2q. split; lra. }
  destruct R0 as [R0 R1]. split; [exact R0|]. split; [exact R1|].
  split.
  - change 0%Z with (Qfloor 0). apply Qfloor_resp_le.
    unfold Qcle in R0. cbn in R0. exact R0.
  - rewrite Zlt_Qlt. eapply Qle_lt_trans; [apply Qfloor_le|].
    unfold Qclt in R1. cbn [this Q2Qc] in R1.
    now rewrite Qred_correct in R1.
Qed.

Lemma np_percentile_Fin (values : list Qc) :
  values <> [] ->
  np_percentile (map Fin values) 5 = Ok (Fin (linear_interpolation_p5 values)).
Proof.
  intro Hne. unfold np_percentile.
  change (negb ((0 <=? 5)%Z && (5 <=? 100)%Z)) with false. cbv iota.
  destruct (map Fin values) as [|x0 xs] eqn:Emap.
  { destruct values; [congruence|discriminate]. }
  rewrite <- Emap. clear x0 xs Emap.
  rewrite np_sort_Fin, length_map, sort_Qc_length, quantile_5.
  unfold linear_interpolation_p5.
  set (n := length values).
  assert (Hn : 1 <= n) by (destruct values; [congruence|cbn; lia]).
  cbn [mul of_Z].
  rewrite (Qcmult_comm (Q2Qc (inject_Z (Z.of_nat n - 1)))).
  set (rank := (Q2Qc (5 # 100) * Q2Qc (inject_Z (Z.of_nat n - 1)))%Qc).
  assert (Hlast : isnan (getitem (map Fin (sort_Qc values)) (-1)) = false).
  { rewrite getitem_Fin_last; [reflexivity|].
    intro E. apply (f_equal (@length Qc)) in E.
    rewrite sort_Qc_length in E. cbn in E. fold n in E. lia. }
  destruct (Nat.eq_dec n 1) as [E1|E1].
  - (* a single value: both indexes are the last one *)
    unfold rank. rewrite E1.
    replace (get_indexes _ 1) with ((-1)%Z, (-1)%Z) by reflexivity.
    rewrite Hlast, getitem_Fin_last.
    + cbn [sub opp of_Z add]. rewrite lerp_Fin. f_equal. f_equal.
      rewrite sort_Qc_length. fold n. rewrite E1. cbn [Nat.sub].
      replace (Z.to_nat (Qfloor _)) with 0 by reflexivity.
      replace (Z.to_nat (Qceiling _)) with 0 by reflexivity.
      ring.
    + intro E. apply (f_equal (@length Qc)) in E.
      rewrite sort_Qc_length in E. cbn in E. fold n in E. lia.
  - pose proof (@rank_bounds n) as RB. cbv zeta in RB. fold rank in RB.
    destruct RB as (R0 & R1 & F0 & F1); [lia|].
    unfold get_indexes, geb. cbn [leb ltb of_Z floor zero].
    replace (Qc_leb (Q2Qc (inject_Z (Z.of_nat n - 1))) rank) with false
      by (symmetry; now apply Qc_leb_false).
    replace (Qc_ltb rank 0) with false
      by (symmetry; now apply Qc_ltb_false).
    rewrite Hlast.
    rewrite !getitem_Fin by (rewrite sort_Qc_length; fold n; lia).
    cbn [sub opp of_Z add]. rewrite lerp_Fin. f_equal. f_equal.
    set (sorted := sort_Qc values).
    destruct (ceiling_cases rank) as [[Ec Eq]|Ec]; rewrite Ec.
    + assert (Er : rank = Q2Qc (inject_Z (Qfloor rank))).
      { apply Qc_is_canon. cbn [this Q2Qc]. now rewrite Qred_correct. }
      rewrite <- Er. ring.
    + ring.
Qed.

(** C2. On a non-empty sample of finite ending values, [np.percentile(., 5)]
    returns the linear interpolation of the specification: the values in
    increasing order (a sorted rearrangement of the sample),
    [rank = 0.05 * (R - 1)], and the interpolation between the sorted values
    at the floor and at the ceiling of the rank.  On the values 1, 2, ...,
    100 it is 5.95. *)
Theorem percentile_linear_interpolation (values : list Qc) :
  values <> [] ->
  np_percentile (map Fin values) 5
  = Ok (Fin (linear_interpolation_p5 values)) /\
  Sorted Qcle (sort_Qc values) /\
  Permutation values (sort_Qc values) /\
  np_percentile (map Fin one_to_hundred) 5 = Ok (Fin (Q2Qc (595 # 100))).
Proof.
  intro Hne. split; [now apply np_percentile_Fin|].
  split; [apply sort_Qc_sorted|]. split; [apply sort_Qc_perm|].
  rewrite np_percentile_Fin by discriminate.
  apply (f_equal (fun q => Ok (Fin q))), Qc_is_canon.
  vm_compute. reflexivity.
Qed.

Lemma percentile_linear_interpolation_witness :
  np_percentile (map Fin [Q2Qc 7; Q2Qc 3; Q2Qc 5]) 5
  = Ok (Fin (linear_interpolation_p5 [Q2Qc 7; Q2Qc 3; Q2Qc 5])) /\
  Sorted Qcle (sort_Qc [Q2Qc 7; Q2Qc 3; Q2Qc 5]) /\
  Permutation [Q2Qc 7; Q2Qc 3; Q2Qc 5] (sort_Qc [Q2Qc 7; Q2Qc 3; Q2Qc 5]) /\
  np_percentile (map Fin one_to_hundred) 5 = Ok (Fin (Q2Qc (595 # 100))).
Proof.
  apply (@percentile_linear_interpolation [Q2Qc 7; Q2Qc 3; Q2Qc 5]).
  discriminate.
Defined.

(** ** Daily returns *)

Lemma filter_all {A} (f : A -> bool) (l : list A) :
  (forall x, In x l -> f x = true) -> filter f l = l.
Proof.
  induction l as [|a l IH]; intro Hall; [reflexivity|].
  cbn. rewrite Hall by now left. f_equal. apply IH.
  intros x Hx. apply Hall. now right.
Qed.

Lemma pct_from_length p c : length (pct_from p c) = length c.
Proof.
  revert p. induction c as [|x c IH]; intro p; cbn; [reflexivity|].
  now rewrite IH.
Qed.

Lemma pct_from_nth p c t :
  t < length c ->
  nth t (pct_from p c) NaN =
  sub (div (nth t c NaN)
           (match t with O => p | S t' => nth t' c NaN end))
      one.
Proof.
  revert p t. induction c as [|x c IH]; intros p t Ht; [cbn in Ht; lia|].
  destruct t as [|t]; [reflexivity|].
  cbn in Ht. cbn [pct_from nth]. rewrite IH by lia.
  destruct t; reflexivity.
Qed.

Lemma pct_change_nrows data : nrows (pct_change data) = nrows data.
Proof.
  destruct data as [|c data]; [reflexivity|]. cbn. apply pct_from_length.
Qed.

Lemma pct_first_day_na c data :
  c <> [] -> row_has_na (pct_change (c :: data)) 0 = true.
Proof.
  intro Hne. destruct c as [|x c]; [congruence|].
  cbn. now rewrite div_NaN_r.
Qed.

(** C8, amended. In a price table of [D] days in which no return after
    the first day is undefined (NaN), the first day alone is dropped, every
    asset has [D - 1] returns, and the return of a day is the price of the day
    over the price of the day before, minus one. *)
Theorem daily_returns_of_complete_table (data : DataFrame) (D : nat) :
  data <> [] ->
  1 <= D ->
  Forall (fun prices => length prices = D) data ->
  (forall prices t, In prices data -> S t < D ->
     isnan (sub (div (nth (S t) prices NaN) (nth t prices NaN)) one)
     = false) ->
  kept_rows (pct_change data) = seq 1 (D - 1) /\
  daily_returns data = map (simple_returns D) data /\
  Forall (fun returns => length returns = D - 1) (daily_returns data).
Proof.
  intros Hne HD Hlen Hdef.
  assert (Hrows : nrows data = D).
  { destruct data as [|c data]; [congruence|]. now inversion Hlen. }
  assert (Hkept : kept_rows (pct_change data) = seq 1 (D - 1)).
  { unfold kept_rows. rewrite pct_change_nrows, Hrows.
    destruct D as [|D]; [lia|]. cbn [seq filter Nat.sub].
    destruct data as [|c data]; [congruence|].
    rewrite pct_first_day_na.
    2:{ inversion Hlen as [|? ? Hc _]; subst. intro E. now rewrite E in Hc. }
    cbn [negb]. rewrite Nat.sub_0_r. apply filter_all.
    intros t Ht. apply in_seq in Ht. apply negb_true_iff.
    unfold row_has_na, pct_change.
    apply not_true_is_false. intro Hex. apply existsb_exists in Hex.
    destruct Hex as (column & Hin & Hna).
    apply in_map_iff in Hin. destruct Hin as (prices & <- & Hin).
    rewrite Forall_forall in Hlen. specialize (Hlen _ Hin).
    rewrite pct_from_nth in Hna by lia.
    destruct t as [|t]; [lia|].
    rewrite Hdef in Hna by (trivial; lia). discriminate. }
  assert (Hret : daily_returns data = map (simple_returns D) data).
  { unfold daily_returns, dropna. rewrite Hkept.
    unfold pct_change. rewrite map_map. apply map_ext_in.
    intros prices Hin. rewrite Forall_forall in Hlen.
    specialize (Hlen _ Hin).
    unfold take_rows, simple_returns. rewrite <- seq_shift, map_map.
    apply map_ext_in. intros t Ht. apply in_seq in Ht.
    now rewrite pct_from_nth by lia. }
  split; [exact Hkept|]. split; [exact Hret|].
  rewrite Hret. apply Forall_map, Forall_forall. intros prices _.
  unfold simple_returns. now rewrite length_map, length_seq.
Qed.

Lemma daily_returns_of_complete_table_witness :
  kept_rows (pct_change four_days) = seq 1 (4 - 1) /\
  daily_returns four_days = map (simple_returns 4) four_days /\
  Forall (fun returns => length returns = 4 - 1) (daily_returns four_days).
Proof.
  apply (@daily_returns_of_complete_table four_days 4).
  - discriminate.
  - lia.
  - repeat constructor.
  - intros prices t Hin Ht.
    destruct Hin as [<-|[<-|[]]];
      (destruct t as [|[|[|t]]]; [reflexivity..|lia]).
Defined.

(** C8, as stated, fails on a forward-filled table with an asset that is
    listed late: of the four days, three are dropped and one return is left
    per asset, not three. *)
Lemma late_listing_drops_three_days :
  ffill late_listing = late_listing /\
  nrows late_listing = 4 /\
  kept_rows (pct_change (ffill late_listing)) = [3] /\
  map (@length num) (daily_returns (ffill late_listing)) = [1; 1].
Proof. vm_compute. repeat split. Qed.

(** ** The statistics *)















(** ** Too short a history *)

Lemma all_nan_nth l i : all_nan l -> nth i l NaN = NaN.
Proof.
  intro Hall. destruct (Nat.lt_ge_cases i (length l)) as [Hi|Hi].
  - unfold all_nan in Hall. rewrite Forall_forall in Hall.
    apply Hall, nth_In, Hi.
  - now apply nth_overflow.
Qed.

Lemma all_nan_last l : l <> [] -> all_nan l -> last l NaN = NaN.
Proof. intros _ Hall. rewrite last_nth. now apply all_nan_nth. Qed.



Lemma portfolio_path_all_nan v rs : all_nan rs -> all_nan (portfolio_path v rs).
Proof.
  intro Hall. revert v. induction Hall as [|r rs Hr _ IH]; intro v;
    [constructor|].
  subst r. cbn [portfolio_path]. rewrite add_NaN_r, mul_NaN_r.
  constructor; [reflexivity|apply IH].
Qed.

Lemma insert_sorted_all_nan l : all_nan l -> all_nan (insert_sorted NaN l).
Proof.
  intro Hall. destruct Hall as [|y l Hy Hl]; [now repeat constructor|].
  subst y. cbn. now repeat constructor.
Qed.

Lemma np_sort_all_nan l : all_nan l -> all_nan (np_sort l).
Proof.
  induction 1 as [|x l Hx _ IH]; [constructor|].
  subst x. cbn [np_sort fold_right]. now apply insert_sorted_all_nan.
Qed.

Lemma getitem_all_nan arr i : all_nan arr -> getitem arr i = NaN.
Proof. intro Hall. unfold getitem. now apply all_nan_nth. Qed.

Lemma np_percentile_all_nan l : l <> [] -> all_nan l -> np_percentile l 5 = Ok NaN.
Proof.
  intros Hne Hall. unfold np_percentile.
  change (negb ((0 <=? 5)%Z && (5 <=? 100)%Z)) with false. cbv iota.
  destruct l as [|x l]; [congruence|].
  destruct (get_indexes _ _) as [previous_index next_index].
  now rewrite !getitem_all_nan by now apply np_sort_all_nan.
Qed.



Lemma ffill_from_length p c : length (ffill_from p c) = length c.
Proof.
  revert p. induction c as [|x c IH]; intro p; cbn; [reflexivity|].
  now rewrite IH.
Qed.

Lemma ffill_nrows data : nrows (ffill data) = nrows data.
Proof.
  destruct data as [|c data]; [reflexivity|]. cbn. apply ffill_from_length.
Qed.


Section ShortHistory.

Context {RS : RandomState} {SQ : RealSqrt}.






Lemma horizon_and_runs_positive : 1 <= time_horizon /\ 1 <= num_simulations.
Proof. unfold time_horizon, num_simulations. lia. Qed.

(** A volatility computed by [nanstd] is never refused by the sampler. *)
Lemma nanstd_scale_ok c :
  negb (isnan (nanstd c)) && signbit (nanstd c) = false.
Proof.
  unfold nanstd. destruct (nanvar c) as [q| | |]; try reflexivity.
  cbn [np_sqrt]. destruct (Qc_ltb q 0); [reflexivity|].
  cbn. apply Qc_ltb_false, sqrtQ_nonneg.
Qed.

Lemma scale_ok_statistics returns :
  scale_ok (return_statistics returns) = true.
Proof.
  unfold scale_ok, return_statistics, avg_daily_return, daily_vol.
  induction returns as [|c returns IH]; [reflexivity|].
  cbn [map combine forallb snd]. now rewrite nanstd_scale_ok, IH.
Qed.

(** The summary of the runs never raises on the statistics the script
    computes. *)
Lemma summary_returns returns V0 amb :
  exists simulation_df metrics,
    simulate_and_summarise 42 (return_statistics returns) time_horizon
      num_simulations V0 amb
    = Ok (simulation_df, metrics).
Proof.
  pose proof horizon_and_runs_positive as [HH HR].
  unfold simulate_and_summarise.
  rewrite monte_carlo_ok by apply scale_ok_statistics.
  cbn [bind]. unfold iloc_last.
  set (stats := return_statistics returns).
  set (df := map (path_of_run 42 stats time_horizon V0)
               (seq 0 num_simulations)).
  assert (Hrows : nrows df = time_horizon).
  { unfold df. destruct num_simulations as [|R]; [lia|].
    cbn [seq map nrows]. apply path_of_run_length. }
  replace (nrows df =? 0) with false
    by (symmetry; apply Nat.eqb_neq; lia).
  cbn [bind]. unfold risk_metrics.
  destruct (@np_percentile_ok (map (fun c => last c NaN) df) 5) as [p5 Hp];
    [|lia|].
  - unfold df. destruct num_simulations as [|R]; [lia|]. discriminate.
  - rewrite Hp. cbn [bind]. eexists _, _. reflexivity.
Qed.

(** A table with a row passes [data.iloc[-1]]: the tab is the summary. *)
Lemma simulation_tab_with_rows s H R data returns V0 amb :
  nrows data <> 0 ->
  simulation_tab s H R data returns V0 amb
  = simulate_and_summarise s (return_statistics returns) H R V0 amb.
Proof.
  intro Hrows. unfold simulation_tab, iloc_last.
  replace (nrows data =? 0) with false by (symmetry; now apply Nat.eqb_neq).
  reflexivity.
Qed.

Lemma run_analysis_with_rows data V0 amb :
  nrows data <> 0 ->
  run_analysis data V0 amb
  = simulate_and_summarise 42
      (return_statistics (daily_returns (ffill data))) time_horizon
      num_simulations V0 amb.
Proof.
  intro Hrows. unfold run_analysis.
  apply simulation_tab_with_rows. now rewrite ffill_nrows.
Qed.


(** On a table with a row the script's simulation never raises: it reaches
    the risk figures. *)
Lemma run_analysis_returns data V0 amb :
  nrows data <> 0 ->
  exists simulation_df metrics,
    run_analysis data V0 amb = Ok (simulation_df, metrics).
Proof.
  intro Hrows. rewrite run_analysis_with_rows by exact Hrows.
  apply summary_returns.
Qed.

End ShortHistory.



(** * Binary64 rounding *)

Section PowersOfTwo.

Local Open Scope Q_scope.

Lemma pow2_pos e : 0 < pow2 e.
Proof. apply Qpower_0_lt. reflexivity. Qed.

Lemma pow2_add a b : pow2 (a + b) == pow2 a * pow2 b.
Proof. apply Qpower_plus. discriminate. Qed.

Lemma pow2_succ e : pow2 (e + 1) == 2 * pow2 e.
Proof. rewrite pow2_add. unfold pow2 at 2. cbn. ring. Qed.

Lemma pow2_le a b : (a <= b)%Z -> pow2 a <= pow2 b.
Proof. intro L. apply Qpower_le_compat_l; [exact L|discriminate]. Qed.

Lemma pow2_lt a b : (a < b)%Z -> pow2 a < pow2 b.
Proof. intro L. apply Qpower_lt_compat_l; [exact L|reflexivity]. Qed.

Lemma pow2_lt_inv a b : pow2 a < pow2 b -> (a < b)%Z.
Proof. intro L. eapply Qpower_lt_compat_l_inv; [exact L|reflexivity]. Qed.

Lemma pow2_le_inv a b : pow2 a <= pow2 b -> (a <= b)%Z.
Proof. intro L. eapply Qpower_le_compat_l_inv; [exact L|reflexivity]. Qed.

Lemma pow2_Z e : (0 <= e)%Z -> pow2 e == inject_Z (2 ^ e).
Proof. intro L. unfold pow2. now rewrite Zpower_Qpower. Qed.

(** A power of two above the grid is an integer number of steps. *)
Lemma pow2_steps k s :
  (s <= k)%Z -> pow2 k == inject_Z (2 ^ (k - s)) * pow2 s.
Proof.
  intro L. rewrite <- pow2_Z by lia. rewrite <- pow2_add.
  now replace (k - s + s)%Z with k by lia.
Qed.

End PowersOfTwo.

Section Exponent.

Local Open Scope Q_scope.

(** [ilog2] is the binary exponent. *)
Lemma ilog2_spec q :
  0 < q -> pow2 (ilog2 q) <= q /\ q < pow2 (ilog2 q + 1).
Proof.
  intro Hq. destruct q as [n d]. unfold ilog2. cbn [Qnum Qden].
  assert (Hn : (0 < n)%Z).
  { unfold Qlt in Hq. cbn in Hq. lia. }
  set (a := Z.log2 n). set (b := Z.log2 (Z.pos d)).
  destruct (Z.log2_spec n Hn) as [Na Na'].
  destruct (Z.log2_spec (Z.pos d) eq_refl) as [Db Db'].
  fold a in Na, Na'. fold b in Db, Db'.
  assert (Ha : (0 <= a)%Z) by apply Z.log2_nonneg.
  assert (Hb : (0 <= b)%Z) by apply Z.log2_nonneg.
  assert (Hd : 0 < inject_Z (Z.pos d)) by reflexivity.
  assert (Lo : pow2 (a - b - 1) <= n # d).
  { rewrite Qmake_Qdiv. apply Qle_shift_div_l; [exact Hd|].
    apply Qle_trans with (pow2 (a - b - 1) * pow2 (b + 1)).
    - apply Qmult_le_l; [apply pow2_pos|].
      rewrite pow2_Z by lia. rewrite <- Zle_Qle.
      replace (b + 1)%Z with (Z.succ b) by lia. lia.
    - rewrite <- pow2_add. replace (a - b - 1 + (b + 1))%Z with a by lia.
      rewrite pow2_Z by lia. now rewrite <- Zle_Qle. }
  assert (Hi : n # d < pow2 (a - b + 1)).
  { rewrite Qmake_Qdiv. apply Qlt_shift_div_r; [exact Hd|].
    apply Qlt_le_trans with (pow2 (a - b + 1) * pow2 b).
    - rewrite <- pow2_add. replace (a - b + 1 + b)%Z with (Z.succ a) by lia.
      rewrite pow2_Z by lia. now rewrite <- Zlt_Qlt.
    - apply Qmult_le_l; [apply pow2_pos|].
      rewrite pow2_Z by lia. now rewrite <- Zle_Qle. }
  destruct (Qle_bool (pow2 (a - b)) (n # d)) eqn:E.
  - apply Qle_bool_iff in E. split; [exact E|exact Hi].
  - split; [exact Lo|].
    replace (a - b - 1 + 1)%Z with (a - b)%Z by lia.
    apply Qnot_le_lt. intro L. apply Qle_bool_iff in L. congruence.
Qed.

Lemma ilog2_unique q e :
  pow2 e <= q -> q < pow2 (e + 1) -> ilog2 q = e.
Proof.
  intros Lo Hi.
  assert (Hq : 0 < q) by (eapply Qlt_le_trans; [apply pow2_pos|exact Lo]).
  destruct (ilog2_spec Hq) as [Lo' Hi'].
  assert (L1 : (e < ilog2 q + 1)%Z).
  { apply pow2_lt_inv. eapply Qle_lt_trans; eassumption. }
  assert (L2 : (ilog2 q < e + 1)%Z).
  { apply pow2_lt_inv. eapply Qle_lt_trans; eassumption. }
  lia.
Qed.

Lemma ilog2_comp q q' : 0 < q -> q == q' -> ilog2 q = ilog2 q'.
Proof.
  intros Hq E. symmetry. destruct (ilog2_spec Hq) as [Lo Hi].
  apply ilog2_unique; now rewrite <- E.
Qed.

Lemma ilog2_double q : 0 < q -> ilog2 (2 * q) = (ilog2 q + 1)%Z.
Proof.
  intro Hq. destruct (ilog2_spec Hq) as [Lo Hi].
  apply ilog2_unique; rewrite pow2_succ.
  - apply Qmult_le_l; [reflexivity|exact Lo].
  - apply Qmult_lt_l; [reflexivity|exact Hi].
Qed.

Lemma ilog2_between q A B :
  pow2 A <= q -> q <= pow2 B -> (A <= ilog2 q <= B)%Z.
Proof.
  intros Lo Hi.
  assert (Hq : 0 < q) by (eapply Qlt_le_trans; [apply pow2_pos|exact Lo]).
  destruct (ilog2_spec Hq) as [Lo' Hi']. split.
  - assert (L : (A < ilog2 q + 1)%Z); [|lia].
    apply pow2_lt_inv. eapply Qle_lt_trans; eassumption.
  - apply pow2_le_inv. eapply Qle_trans; eassumption.
Qed.

End Exponent.

Section Nearest.

Local Open Scope Q_scope.

Lemma round_half_even_cases y :
  round_half_even y = Qfloor y \/ round_half_even y = (Qfloor y + 1)%Z.
Proof.
  unfold round_half_even.
  destruct (y - inject_Z (Qfloor y) ?= 1 # 2); [|now left|now right].
  destruct (Z.even (Qfloor y)); [now left|now right].
Qed.

Lemma round_half_even_comp y y' :
  y == y' -> round_half_even y = round_half_even y'.
Proof.
  intro E. unfold round_half_even.
  rewrite (Qfloor_comp _ _ E).
  assert (E' : y - inject_Z (Qfloor y') == y' - inject_Z (Qfloor y'))
    by now rewrite E.
  now rewrite (Qcompare_comp _ _ E' _ _ (Qeq_refl (1 # 2))).
Qed.

(** Rounding does not cross an integer. *)
Lemma round_half_even_ge k y :
  inject_Z k <= y -> (k <= round_half_even y)%Z.
Proof.
  intro L. apply Qfloor_resp_le in L. rewrite Qfloor_Z in L.
  destruct (round_half_even_cases y) as [-> | ->]; lia.
Qed.

Lemma round_half_even_le k y :
  y <= inject_Z k -> (round_half_even y <= k)%Z.
Proof.
  intro L. pose proof (Qfloor_le y) as F.
  assert (Fk : (Qfloor y <= k)%Z).
  { rewrite Zle_Qle. eapply Qle_trans; eassumption. }
  destruct (Z.eq_dec (Qfloor y) k) as [E|NE].
  - assert (Ey : y == inject_Z k).
    { apply Qle_antisym; [exact L|]. now rewrite <- E. }
    rewrite (round_half_even_comp Ey). unfold round_half_even.
    rewrite Qfloor_Z.
    replace (inject_Z k - inject_Z k ?= 1 # 2) with Lt; [lia|].
    symmetry. apply -> Qlt_alt.
    assert (Z0 : inject_Z k - inject_Z k == 0) by ring.
    now rewrite Z0.
  - destruct (round_half_even_cases y) as [-> | ->]; lia.
Qed.

(** The rounding error is at most one half. *)
Lemma round_half_even_near y :
  - (1 # 2) <= inject_Z (round_half_even y) - y <= 1 # 2.
Proof.
  pose proof (Qfloor_le y) as F. pose proof (Qlt_floor y) as C.
  rewrite inject_Z_plus in C.
  unfold round_half_even.
  destruct (y - inject_Z (Qfloor y) ?= 1 # 2) eqn:E.
  - apply Qeq_alt in E.
    destruct (Z.even (Qfloor y)); [|rewrite inject_Z_plus];
      unfold inject_Z in *; split; lra.
  - apply Qlt_alt in E. unfold inject_Z in *. split; lra.
  - apply Qgt_alt in E. rewrite inject_Z_plus.
    unfold inject_Z in *. split; lra.
Qed.

Lemma ulp_exponent_comp q q' :
  0 < q -> q == q' -> ulp_exponent q = ulp_exponent q'.
Proof. intros Hq E. unfold ulp_exponent. now rewrite (ilog2_comp Hq E). Qed.

Lemma nearest_comp q q' : 0 < q -> q == q' -> nearest q == nearest q'.
Proof.
  intros Hq E. unfold nearest. rewrite <- (ulp_exponent_comp Hq E).
  assert (E' : q / pow2 (ulp_exponent q) == q' / pow2 (ulp_exponent q))
    by (unfold Qdiv; apply Qmult_comp; [exact E|reflexivity]).
  now rewrite (round_half_even_comp E').
Qed.


(** Rounding does not cross a power of two that is on the grid. *)
Lemma nearest_ge_pow2 q k :
  (ulp_exponent q <= k)%Z -> pow2 k <= q -> pow2 k <= nearest q.
Proof.
  intros Hk L. unfold nearest. rewrite (pow2_steps Hk).
  apply Qmult_le_compat_r; [|apply Qlt_le_weak, pow2_pos].
  rewrite <- Zle_Qle. apply round_half_even_ge.
  apply Qle_shift_div_l; [apply pow2_pos|].
  now rewrite <- (pow2_steps Hk).
Qed.

Lemma nearest_le_pow2 q k :
  (ulp_exponent q <= k)%Z -> q <= pow2 k -> nearest q <= pow2 k.
Proof.
  intros Hk L. unfold nearest. rewrite (pow2_steps Hk).
  apply Qmult_le_compat_r; [|apply Qlt_le_weak, pow2_pos].
  rewrite <- Zle_Qle. apply round_half_even_le.
  apply Qle_shift_div_r; [apply pow2_pos|].
  now rewrite <- (pow2_steps Hk).
Qed.

(** A result between two powers of two in the range of the doubles is
    rounded to a double between them. *)
Lemma nearest_between q A B :
  (-1074 <= A)%Z -> pow2 A <= q -> q <= pow2 B ->
  pow2 A <= nearest q /\ nearest q <= pow2 B.
Proof.
  intros HA Lo Hi.
  assert (Hq : 0 < q) by (eapply Qlt_le_trans; [apply pow2_pos|exact Lo]).
  destruct (ilog2_between A B Lo Hi) as [EA EB].
  destruct (ilog2_spec Hq) as [Lo' _].
  split.
  - destruct (Z_le_gt_dec (ulp_exponent q) A) as [L|G].
    + now apply nearest_ge_pow2.
    + apply Qle_trans with (pow2 (ilog2 q)); [now apply pow2_le|].
      apply nearest_ge_pow2; [unfold ulp_exponent in *; lia|exact Lo'].
  - apply nearest_le_pow2; [unfold ulp_exponent; lia|exact Hi].
Qed.


(** In the range of the normal doubles, rounding commutes with doubling. *)
Lemma nearest_double q :
  pow2 (-1022) <= q -> nearest (2 * q) == 2 * nearest q.
Proof.
  intro Lo.
  assert (Hq : 0 < q) by (eapply Qlt_le_trans; [apply pow2_pos|exact Lo]).
  destruct (ilog2_spec Hq) as [_ Hi].
  assert (He : (-1022 <= ilog2 q)%Z).
  { assert (L : (-1022 < ilog2 q + 1)%Z); [|lia].
    apply pow2_lt_inv. eapply Qle_lt_trans; eassumption. }
  assert (Es : ulp_exponent (2 * q) = (ulp_exponent q + 1)%Z).
  { unfold ulp_exponent. rewrite (ilog2_double Hq). lia. }
  unfold nearest. rewrite Es.
  assert (E : 2 * q / pow2 (ulp_exponent q + 1)
              == q / pow2 (ulp_exponent q)).
  { rewrite pow2_succ. field.
    pose proof (pow2_pos (ulp_exponent q)). lra. }
  rewrite (round_half_even_comp E), pow2_succ. ring.
Qed.

(** In the range of the normal doubles the relative error of rounding is
    at most the unit roundoff. *)
Lemma nearest_relative_error q :
  pow2 (-1022) <= q ->
  (1 - u) * q <= nearest q /\ nearest q <= (1 + u) * q.
Proof.
  intro Lo.
  assert (Hq : 0 < q) by (eapply Qlt_le_trans; [apply pow2_pos|exact Lo]).
  destruct (ilog2_spec Hq) as [Lo' Hi].
  assert (He : (-1022 <= ilog2 q)%Z).
  { assert (L : (-1022 < ilog2 q + 1)%Z); [|lia].
    apply pow2_lt_inv. eapply Qle_lt_trans; eassumption. }
  assert (Es : ulp_exponent q = (ilog2 q - 52)%Z)
    by (unfold ulp_exponent; lia).
  unfold nearest. rewrite Es. set (s := (ilog2 q - 52)%Z).
  pose proof (round_half_even_near (q / pow2 s)) as [N1 N2].
  set (m := inject_Z (round_half_even (q / pow2 s))) in *.
  pose proof (pow2_pos s) as Ps.
  assert (Eq : q == q / pow2 s * pow2 s) by (field; lra).
  assert (Hu : pow2 s == 2 * u * pow2 (ilog2 q)).
  { unfold u, s. replace (ilog2 q - 52)%Z with (1 + -53 + ilog2 q)%Z by lia.
    rewrite !pow2_add. unfold pow2 at 1. cbn. ring. }
  assert (Hh : (1 # 2) * pow2 s <= u * q).
  { rewrite Hu. unfold u in *. pose proof (pow2_pos (-53)) as Pu.
    assert (pow2 (-53) * pow2 (ilog2 q) <= pow2 (-53) * q)
      by (apply Qmult_le_l; assumption).
    lra. }
  assert (D1 : (m - q / pow2 s) * pow2 s <= (1 # 2) * pow2 s)
    by (apply Qmult_le_compat_r; lra).
  assert (D2 : - (1 # 2) * pow2 s <= (m - q / pow2 s) * pow2 s)
    by (apply Qmult_le_compat_r; lra).
  assert (Em : m * pow2 s == q + (m - q / pow2 s) * pow2 s)
    by (field; lra).
  rewrite Em. split; lra.
Qed.

End Nearest.

(** ** Rounding of the extended rationals *)

Lemma Qc_sign_opp (q : Qc) : (- q ?= 0)%Qc = CompOpp (q ?= 0)%Qc.
Proof.
  unfold Qccompare, Qcopp, Q2Qc. cbn [this].
  rewrite (Qcompare_comp _ _ (Qred_correct _) 0%Q 0%Q (Qeq_refl _)).
  unfold Qcompare. cbn. rewrite !Z.mul_1_r. now destruct (Qnum q).
Qed.

Lemma Qc_sign_pos (q : Qc) : (q ?= 0)%Qc = Gt <-> (0 < q)%Q.
Proof.
  unfold Qccompare. rewrite <- Qgt_alt. reflexivity.
Qed.

Lemma opp_opp x : opp (opp x) = x.
Proof.
  destruct x as [q| | |]; try reflexivity.
  cbn. f_equal. apply Qcopp_involutive.
Qed.

Lemma this_opp (q : Qc) : this (- q)%Qc = (- this q)%Q.
Proof.
  unfold Qcopp, Q2Qc. cbn [this]. rewrite Qred_opp. f_equal. apply canon.
Qed.

Lemma rnd64_opp x : rnd64 (opp x) = opp (rnd64 x).
Proof.
  destruct x as [q| | |]; try reflexivity.
  cbn [opp rnd64]. rewrite Qc_sign_opp.
  destruct (q ?= 0)%Qc eqn:E; cbn [CompOpp].
  - reflexivity.
  - now rewrite opp_opp, this_opp.
  - rewrite this_opp. destruct (this q) as [n d]. unfold Qopp. cbn [Qnum Qden].
    now rewrite Z.opp_involutive.
Qed.

Lemma rnd64_zero : rnd64 zero = zero.
Proof. reflexivity. Qed.

Lemma round_pos_below (q : Q) :
  (nearest q < pow2 1024)%Q -> round_pos q = Fin (Q2Qc (nearest q)).
Proof.
  intro L. unfold round_pos.
  destruct (Qle_bool (pow2 1024) (nearest q)) eqn:E; [|reflexivity].
  apply Qle_bool_iff in E. now apply Qle_not_lt in E.
Qed.



Lemma Q_in_normal_range_spec (q : Q) :
  Q_in_normal_range q = true <->
  (pow2 (-1022) <= q)%Q /\ (q <= pow2 1022)%Q.
Proof.
  unfold Q_in_normal_range. now rewrite andb_true_iff, !Qle_bool_iff.
Qed.

Lemma Q2Qc_double (y : Q) :
  (Q2Qc (inject_Z 2) * Q2Qc y)%Qc = Q2Qc (2 * y).
Proof.
  apply Qc_is_canon. unfold Qcmult, Q2Qc. cbn [this].
  rewrite Qred_correct.
  rewrite (Qred_correct (inject_Z 2)), (Qred_correct y), Qred_correct.
  reflexivity.
Qed.

(** Where neither underflow nor overflow acts, rounding commutes with
    doubling. *)
Lemma rnd64_double x :
  in_normal_range x = true -> rnd64 (double x) = double (rnd64 x).
Proof.
  assert (Pos : forall q : Qc,
            (q ?= 0)%Qc = Gt -> Q_in_normal_range q = true ->
            rnd64 (double (Fin q)) = double (rnd64 (Fin q))).
  { intros q Hs Hr. apply Q_in_normal_range_spec in Hr as [Lo Hi].
    destruct (@nearest_between q (-1022) 1022 ltac:(lia) Lo Hi)
      as [Lo' Hi'].
    assert (Hq : (0 < q)%Q) by now apply Qc_sign_pos.
    assert (E2 : ((Q2Qc (inject_Z 2) * q)%Qc == 2 * q)%Q).
    { unfold Qcmult, Q2Qc. cbn [this]. rewrite !Qred_correct. reflexivity. }
    assert (H2 : (0 < 2 * q)%Q) by lra.
    assert (N2 : (nearest (Q2Qc (inject_Z 2) * q)%Qc == 2 * nearest q)%Q).
    { rewrite (nearest_comp (q := (Q2Qc (inject_Z 2) * q)%Qc)
                 (q' := (2 * q)%Q)).
      - now apply nearest_double.
      - now rewrite E2.
      - exact E2. }
    rewrite double_Fin. cbn [rnd64].
    rewrite Qc_sign_mul, two_sign, Hs.
    rewrite !round_pos_below.
    - rewrite double_Fin, Q2Qc_double.
      apply (f_equal Fin), Q2Qc_eq_iff, N2.
    - eapply Qle_lt_trans; [exact Hi'|]. apply pow2_lt. lia.
    - rewrite N2. apply Qle_lt_trans with (2 * pow2 1022)%Q; [lra|].
      rewrite <- pow2_succ. apply pow2_lt. lia. }
  destruct x as [q| | |]; try reflexivity.
  cbn [in_normal_range]. destruct (q ?= 0)%Qc eqn:Hs; intro Hr.
  - apply Qceq_alt in Hs. subst q. reflexivity.
  - assert (Hs' : (- q ?= 0)%Qc = Gt) by now rewrite Qc_sign_opp, Hs.
    rewrite <- this_opp in Hr.
    specialize (Pos (- q)%Qc Hs' Hr).
    change (Fin (- q)) with (opp (Fin q)) in Pos.
    rewrite double_opp, !rnd64_opp, double_opp in Pos.
    apply (f_equal opp) in Pos. now rewrite !opp_opp in Pos.
  - now apply Pos.
Qed.

Lemma rnd64_NaN : rnd64 NaN = NaN.
Proof. reflexivity. Qed.

Lemma rnd64_isnan x : isnan (rnd64 x) = isnan x.
Proof.
  destruct x as [q| | |]; try reflexivity.
  cbn [rnd64 isnan]. unfold round_pos.
  destruct (q ?= 0)%Qc; [reflexivity| |].
  - now destruct (Qle_bool _ _).
  - now destruct (Qle_bool _ _).
Qed.

(** ** The error of a chain of roundings *)

Section Roundings.

Local Open Scope Q_scope.

Lemma u_bounds : 0 < u /\ u < 1.
Proof. unfold u, pow2. cbn. split; reflexivity. Qed.

Lemma one_minus_u_pow_pos k : 0 < (1 - u) ^ Z.of_nat k.
Proof. apply Qpower_0_lt. pose proof u_bounds. lra. Qed.

Lemma one_plus_u_pow_pos k : 0 < (1 + u) ^ Z.of_nat k.
Proof. apply Qpower_0_lt. pose proof u_bounds. lra. Qed.

Lemma within_roundings_refl a : within_roundings 0 a a.
Proof.
  exists 1. cbn. split; [ring|]. split; apply Qle_refl.
Qed.

Lemma within_roundings_comp k a a' b b' :
  a == a' -> b == b' -> within_roundings k a b -> within_roundings k a' b'.
Proof.
  intros Ea Eb (rho & E & L1 & L2). exists rho.
  split; [now rewrite <- Ea, <- Eb|now split].
Qed.

Lemma within_roundings_mul j k a b c d :
  within_roundings j a b -> within_roundings k c d ->
  within_roundings (j + k) (a * c) (b * d).
Proof.
  intros (r1 & E1 & L1 & H1) (r2 & E2 & L2 & H2).
  pose proof (one_minus_u_pow_pos j) as P1.
  pose proof (one_minus_u_pow_pos k) as P2.
  pose proof u_bounds as [U0 U1].
  exists (r1 * r2). split; [rewrite E1, E2; ring|].
  rewrite Nat2Z.inj_add, !Qpower_plus by lra.
  split; apply Qmult_le_compat_nonneg; split; lra.
Qed.

Lemma within_roundings_trans j k a b c :
  within_roundings j a b -> within_roundings k b c ->
  within_roundings (j + k) a c.
Proof.
  intros (r1 & E1 & L1 & H1) (r2 & E2 & L2 & H2).
  pose proof (one_minus_u_pow_pos j) as P1.
  pose proof (one_minus_u_pow_pos k) as P2.
  pose proof u_bounds as [U0 U1].
  exists (r2 * r1). split; [rewrite E1, E2; ring|].
  rewrite Nat2Z.inj_add, !Qpower_plus by lra.
  rewrite (Qmult_comm ((1 - u) ^ Z.of_nat j)).
  rewrite (Qmult_comm ((1 + u) ^ Z.of_nat j)).
  split; apply Qmult_le_compat_nonneg; split; lra.
Qed.

Lemma within_roundings_opp k a b :
  within_roundings k a b -> within_roundings k (- a) (- b).
Proof.
  intros (rho & E & L). exists rho. split; [rewrite E; ring|exact L].
Qed.

(** One rounding of a positive result in the normal range. *)
Lemma within_roundings_nearest q :
  pow2 (-1022) <= q -> within_roundings 1 (nearest q) q.
Proof.
  intro Lo.
  assert (Hq : 0 < q) by (eapply Qlt_le_trans; [apply pow2_pos|exact Lo]).
  destruct (nearest_relative_error Lo) as [L H].
  exists (nearest q / q). split; [field; lra|].
  change ((1 - u) ^ Z.of_nat 1) with (1 - u).
  change ((1 + u) ^ Z.of_nat 1) with (1 + u).
  split.
  - apply Qle_shift_div_l; [exact Hq|exact L].
  - apply Qle_shift_div_r; [exact Hq|exact H].
Qed.

End Roundings.

(** A finite result in the normal range is rounded to a finite double, one
    rounding away. *)
Lemma rnd64_within_roundings (q : Qc) :
  in_normal_range (Fin q) = true ->
  exists y : Qc, rnd64 (Fin q) = Fin y /\ within_roundings 1 y q.
Proof.
  assert (Pos : forall p : Qc,
            (p ?= 0)%Qc = Gt -> Q_in_normal_range p = true ->
            exists y : Qc, round_pos p = Fin y /\ within_roundings 1 y p).
  { intros p Hs Hr. apply Q_in_normal_range_spec in Hr as [Lo Hi].
    destruct (@nearest_between p (-1022) 1022 ltac:(lia) Lo Hi)
      as [Lo' Hi'].
    rewrite round_pos_below
      by (eapply Qle_lt_trans; [exact Hi'|]; apply pow2_lt; lia).
    eexists. split; [reflexivity|].
    eapply within_roundings_comp;
      [| |apply (within_roundings_nearest Lo)].
    - cbn [this Q2Qc]. now rewrite Qred_correct.
    - reflexivity. }
  cbn [in_normal_range rnd64]. destruct (q ?= 0)%Qc eqn:Hs; intro Hr.
  - exists q. split; [reflexivity|].
    exists 1%Q. split; [ring|]. cbn. unfold u, pow2. cbn.
    split; discriminate.
  - assert (Hs' : (- q ?= 0)%Qc = Gt) by now rewrite Qc_sign_opp, Hs.
    rewrite <- this_opp in Hr.
    destruct (Pos (- q)%Qc Hs' Hr) as (y & Ey & Wy).
    rewrite this_opp in Ey. rewrite Ey. exists (- y)%Qc.
    split; [reflexivity|].
    apply within_roundings_opp in Wy.
    eapply within_roundings_comp; [| |exact Wy].
    + now rewrite this_opp.
    + rewrite this_opp. ring.
  - now apply Pos.
Qed.

(** ** The rounded loop *)

Lemma rounded_portfolio_path_exact v rs :
  Rounded.portfolio_path (fun x => x) v rs = portfolio_path v rs.
Proof.
  revert v. induction rs as [|r rs IH]; intro v; [reflexivity|].
  cbn [Rounded.portfolio_path portfolio_path]. now rewrite IH.
Qed.


(** The loop is the product taken from the left, one factor a day, with
    the roundings of the loop. *)
Lemma rounded_portfolio_path_fold round v rs t :
  t < length rs ->
  nth t (Rounded.portfolio_path round v rs) NaN
  = fold_left (fun value r => round (mul value (round (add one r))))
      (firstn (S t) rs) v.
Proof.
  revert v t. induction rs as [|r rs IH]; intros v t Ht; [cbn in Ht; lia|].
  cbn in Ht. destruct t as [|t].
  - reflexivity.
  - cbn [Rounded.portfolio_path nth]. rewrite IH by lia. reflexivity.
Qed.

Lemma mul_Fin_within (n k : nat) (v f e g : Qc) :
  within_roundings n v e -> within_roundings k f g ->
  within_roundings (n + k) (v * f)%Qc (e * g)%Qc.
Proof.
  intros Wv Wf.
  eapply within_roundings_comp; [| |apply (within_roundings_mul Wv Wf)].
  - unfold Qcmult, Q2Qc. cbn [this]. now rewrite Qred_correct.
  - unfold Qcmult, Q2Qc. cbn [this]. now rewrite Qred_correct.
Qed.

(** Without underflow and overflow the rounded loop follows the exact
    loop, two roundings a day. *)
Lemma rounded_path_within_roundings rs :
  forall (v e : Qc) (n t : nat),
    Forall (fun r => isfinite r = true) rs ->
    forallb in_normal_range
      (Rounded.loop_operations rnd64 (Fin v) (firstn (S t) rs)) = true ->
    within_roundings n v e ->
    t < length rs ->
    exists y e' : Qc,
      nth t (Rounded.portfolio_path rnd64 (Fin v) rs) NaN = Fin y /\
      nth t (portfolio_path (Fin e) rs) NaN = Fin e' /\
      within_roundings (n + 2 * S t) y e'.
Proof.
  induction rs as [|r rs IH]; intros v e n t Hfin Hops Wv Ht;
    [cbn in Ht; lia|].
  inversion Hfin as [|r' rs' Hr Hrs]; subst r' rs'.
  destruct r as [rho| | |]; try discriminate.
  change (firstn (S t) (Fin rho :: rs)) with (Fin rho :: firstn t rs) in Hops.
  cbn [Rounded.loop_operations forallb] in Hops.
  apply andb_true_iff in Hops as [Hf Hops].
  apply andb_true_iff in Hops as [Hp Hops].
  change (Num.add one (Fin rho)) with (Fin (1 + rho)%Qc) in Hf, Hp, Hops.
  destruct (rnd64_within_roundings _ Hf) as (f & Ef & Wf).
  rewrite Ef in Hp, Hops.
  change (Num.mul (Fin v) (Fin f)) with (Fin (v * f)%Qc) in Hp, Hops.
  destruct (rnd64_within_roundings _ Hp) as (v' & Ev & Wv').
  rewrite Ev in Hops.
  assert (W : within_roundings (n + 2) v' (e * (1 + rho))%Qc).
  { replace (n + 2) with (1 + (n + 1)) by lia.
    eapply within_roundings_trans; [exact Wv'|].
    now apply mul_Fin_within. }
  cbn [Rounded.portfolio_path portfolio_path].
  unfold Rounded.mul, Rounded.add.
  change (Num.add one (Fin rho)) with (Fin (1 + rho)%Qc). rewrite Ef.
  change (Num.mul (Fin v) (Fin f)) with (Fin (v * f)%Qc). rewrite Ev.
  change (mul (Fin e) (Fin (1 + rho)%Qc)) with (Fin (e * (1 + rho))%Qc).
  destruct t as [|t].
  - exists v', (e * (1 + rho))%Qc. cbn [nth].
    split; [reflexivity|]. split; [reflexivity|exact W].
  - cbn [nth]. cbn in Ht.
    destruct (IH v' (e * (1 + rho))%Qc (n + 2) t Hrs Hops W ltac:(lia))
      as (y & e' & Ey & Ee & Wy).
    exists y, e'. split; [exact Ey|]. split; [exact Ee|].
    now replace (n + 2 * S (S t)) with (n + 2 + 2 * S t) by lia.
Qed.

(** C10, amended. The loop is the running product taken from the left,
    one rounding for each sum [1 + r] and one for each multiplication; in
    exact arithmetic, where nothing is rounded, that is the closed form, the
    investment times the product of [1 + r] over the days up to [t].  In
    binary64 the value of day [t] and the closed form agree up to [2 t + 3]
    roundings, a relative error below [(1 + 2^-53)^(2 t + 3) - 1], as long
    as the returns are finite and no operation underflows or overflows; they
    are not equal in general. *)
Theorem compounding_closed_form_up_to_rounding (initial_investment : Z)
  (returns : list num) (t : nat) :
  t < length returns ->
  (forall round : num -> num,
     nth t (Rounded.portfolio_path round
              (Rounded.of_Z round initial_investment) returns) NaN
     = fold_left (fun value r => round (mul value (round (add one r))))
         (firstn (S t) returns) (round (of_Z initial_investment))) /\
  nth t (Rounded.portfolio_path (fun x => x)
           (Rounded.of_Z (fun x => x) initial_investment) returns) NaN
  = closed_form initial_investment returns t /\
  (Forall (fun r => isfinite r = true) returns ->
   forallb in_normal_range
     (of_Z initial_investment
      :: Rounded.loop_operations rnd64 (Rounded.of_Z rnd64 initial_investment)
           (firstn (S t) returns)) = true ->
   exists value exact : Qc,
     nth t (Rounded.portfolio_path rnd64
              (Rounded.of_Z rnd64 initial_investment) returns) NaN
     = Fin value /\
     closed_form initial_investment returns t = Fin exact /\
     within_roundings (2 * t + 3) value exact).
Proof.
  intro Ht. split; [|split].
  - intro round. now apply rounded_portfolio_path_fold.
  - rewrite rounded_portfolio_path_exact.
    now apply portfolio_path_closed_form.
  - intros Hfin Hops. cbn [forallb] in Hops.
    apply andb_true_iff in Hops as [H0 Hops].
    unfold Rounded.of_Z in *. unfold of_Z in *.
    set (V := Q2Qc (inject_Z initial_investment)) in *.
    destruct (rnd64_within_roundings _ H0) as (v & Ev & Wv).
    rewrite Ev in *.
    destruct (@rounded_path_within_roundings returns v V 1 t Hfin Hops Wv Ht)
      as (y & e' & Ey & Ee & Wy).
    exists y, e'. split; [exact Ey|]. split.
    + unfold closed_form, of_Z. fold V.
      now rewrite <- portfolio_path_closed_form.
    + now replace (2 * t + 3) with (1 + 2 * S t) by lia.
Qed.

Lemma compounding_closed_form_up_to_rounding_witness :
  (forall round : num -> num,
     nth 1 (Rounded.portfolio_path round (Rounded.of_Z round 10000)
              [five_percent; two_percent]) NaN
     = fold_left (fun value r => round (mul value (round (add one r))))
         (firstn 2 [five_percent; two_percent]) (round (of_Z 10000))) /\
  nth 1 (Rounded.portfolio_path (fun x => x)
           (Rounded.of_Z (fun x => x) 10000) [five_percent; two_percent]) NaN
  = closed_form 10000 [five_percent; two_percent] 1 /\
  exists value exact : Qc,
    nth 1 (Rounded.portfolio_path rnd64 (Rounded.of_Z rnd64 10000)
             [five_percent; two_percent]) NaN
    = Fin value /\
    closed_form 10000 [five_percent; two_percent] 1 = Fin exact /\
    within_roundings (2 * 1 + 3) value exact.
Proof.
  destruct (@compounding_closed_form_up_to_rounding 10000
              [five_percent; two_percent] 1) as (Hfold & Hexact & Hclose).
  - cbn. lia.
  - split; [exact Hfold|]. split; [exact Hexact|]. apply Hclose.
    + repeat constructor.
    + vm_compute. reflexivity.
Defined.

(** C10, as stated, fails in binary64 on returns of 5% and 2% from 10000:
    the loop ends the second day on 10710 exactly, the closed form with the
    product taken first gives the next double, 10710.000000000002, and the
    closed form in exact arithmetic is a third number. *)
Lemma closed_form_differs_in_binary64 :
  nth 1 (Rounded.portfolio_path rnd64 (Rounded.of_Z rnd64 10000)
           [five_percent; two_percent]) NaN
  = of_Z 10710 /\
  Rounded.mul rnd64 (Rounded.of_Z rnd64 10000)
    (Rounded.mul rnd64 (Rounded.add rnd64 one five_percent)
       (Rounded.add rnd64 one two_percent))
  = Fin (Q2Qc (inject_Z 10710 + pow2 (-39))) /\
  eqb (of_Z 10710) (closed_form 10000 [five_percent; two_percent] 1) = false /\
  forallb in_normal_range
    (of_Z 10000
     :: Rounded.loop_operations rnd64 (Rounded.of_Z rnd64 10000)
          [five_percent; two_percent]) = true.
Proof.
  split; [|split; [|split]]; vm_compute;
    try reflexivity; apply (f_equal Fin), Qc_is_canon; reflexivity.
Qed.

(** ** Sign and range of the rounded loop *)














(** ** Doubling the investment in the rounded loop *)

Lemma rounded_of_Z_double z :
  in_normal_range (of_Z z) = true ->
  Rounded.of_Z rnd64 (2 * z) = double (Rounded.of_Z rnd64 z).
Proof.
  intro Hz. unfold Rounded.of_Z. rewrite double_of_Z.
  now apply rnd64_double.
Qed.

Lemma rounded_path_double rs :
  forall v,
    forallb in_normal_range (Rounded.loop_products rnd64 v rs) = true ->
    Rounded.portfolio_path rnd64 (double v) rs
    = map double (Rounded.portfolio_path rnd64 v rs).
Proof.
  induction rs as [|r rs IH]; intros v Hops; [reflexivity|].
  cbn [Rounded.loop_products forallb] in Hops.
  apply andb_true_iff in Hops as [Hp Hops].
  assert (E : Rounded.mul rnd64 (double v) (Rounded.add rnd64 one r)
              = double (Rounded.mul rnd64 v (Rounded.add rnd64 one r))).
  { unfold Rounded.mul. rewrite <- double_mul. now apply rnd64_double. }
  cbn [Rounded.portfolio_path map]. rewrite E. f_equal. now apply IH.
Qed.

Lemma rounded_lerp_double a b t :
  forallb in_normal_range (Rounded.lerp_operations rnd64 a b t) = true ->
  Rounded.lerp rnd64 (double a) (double b) t
  = double (Rounded.lerp rnd64 a b t).
Proof.
  unfold Rounded.lerp_operations, Rounded.lerp.
  destruct (geb t _); cbn [forallb]; rewrite !andb_true_iff;
    intros (H1 & H2 & H3 & _);
    unfold Rounded.sub, Rounded.add, Rounded.mul in *.
  - rewrite <- double_sub, (rnd64_double _ H1).
    rewrite <- double_mul, (rnd64_double _ H2).
    rewrite <- double_sub. now apply rnd64_double.
  - rewrite <- double_sub, (rnd64_double _ H1).
    rewrite <- double_mul, (rnd64_double _ H2).
    rewrite <- double_add. now apply rnd64_double.
Qed.

Lemma rounded_risk_metrics_double ending_values z :
  in_normal_range (of_Z z) = true ->
  forallb in_normal_range (Rounded.risk_operations rnd64 ending_values z)
  = true ->
  Rounded.risk_metrics rnd64 (map double ending_values) (2 * z)
  = (metrics <- Rounded.risk_metrics rnd64 ending_values z;;
     Ok (double_metrics metrics)).
Proof.
  intros Hz Hops. unfold Rounded.risk_metrics, Rounded.np_percentile.
  unfold Rounded.risk_operations in Hops.
  change (negb ((0 <=? 5)%Z && (5 <=? 100)%Z)) with false. cbv iota.
  destruct ending_values as [|x ending_values]; [reflexivity|].
  change (map double (x :: ending_values))
    with (double x :: map double ending_values).
  cbv iota.
  change (double x :: map double ending_values)
    with (map double (x :: ending_values)).
  rewrite double_np_sort, length_map.
  set (arr := np_sort (x :: ending_values)) in *.
  set (quantile := Rounded.div rnd64 (Rounded.of_Z rnd64 5)
                     (Rounded.of_Z rnd64 100)) in *.
  set (virtual_index :=
         Rounded.mul rnd64 (Rounded.of_Z rnd64 (Z.of_nat (length arr) - 1))
           quantile) in *.
  destruct (get_indexes virtual_index (length arr))
    as [previous_index next_index].
  set (gamma := Rounded.sub rnd64 virtual_index
                  (Rounded.of_Z rnd64 previous_index)) in *.
  rewrite forallb_app in Hops. apply andb_true_iff in Hops as [Hl Hv].
  cbn [forallb] in Hv. rewrite andb_true_r in Hv.
  cbn [bind]. rewrite !double_getitem, (rounded_lerp_double _ _ _ Hl).
  rewrite double_isnan.
  set (p5 := if isnan (getitem arr (-1)) then NaN
             else Rounded.lerp rnd64 (getitem arr previous_index)
                    (getitem arr next_index) gamma) in *.
  replace (if isnan (getitem arr (-1)) then NaN
           else double (Rounded.lerp rnd64 (getitem arr previous_index)
                          (getitem arr next_index) gamma))
    with (double p5) by (unfold p5; now destruct (isnan _)).
  unfold double_metrics. cbn [future_value_95 VaR_95 verdict].
  rewrite (rounded_of_Z_double _ Hz). unfold Rounded.sub.
  rewrite <- double_sub, (rnd64_double _ Hv), double_classify.
  reflexivity.
Qed.

Lemma rounded_simulation_df_double z returns_of_runs :
  in_normal_range (of_Z z) = true ->
  Forall (fun returns =>
            forallb in_normal_range
              (Rounded.loop_products rnd64 (Rounded.of_Z rnd64 z) returns)
            = true) returns_of_runs ->
  Rounded.simulation_df rnd64 (2 * z) returns_of_runs
  = map (map double) (Rounded.simulation_df rnd64 z returns_of_runs).
Proof.
  intros Hz Hall. unfold Rounded.simulation_df.
  rewrite map_map, (rounded_of_Z_double _ Hz).
  apply map_ext_in. intros rs Hin. rewrite Forall_forall in Hall.
  now apply rounded_path_double, Hall.
Qed.

(** C6, amended. For fixed portfolio daily returns, doubling the initial
    investment doubles every value of the ensemble exactly as long as, in
    the run on the initial investment, every product
    [current_value * (1 + r)] is zero, infinite, NaN, or of magnitude between
    [2^-1022] and [2^1022], so that neither underflow nor overflow acts on
    it or on its double.  The percentile, the Value-at-Risk and the amount
    of the verdict are then doubled exactly as well, as long as the same
    holds of the four results that are rounded on the way from the ending
    values to the Value-at-Risk. *)
Theorem doubling_is_exact_in_the_normal_range (initial_investment : Z)
  (returns_of_runs : list (list num)) :
  in_normal_range (of_Z initial_investment) = true ->
  Forall (fun returns =>
            forallb in_normal_range
              (Rounded.loop_products rnd64
                 (Rounded.of_Z rnd64 initial_investment) returns)
            = true) returns_of_runs ->
  let simulation_df :=
    Rounded.simulation_df rnd64 initial_investment returns_of_runs in
  let doubled_df :=
    Rounded.simulation_df rnd64 (2 * initial_investment) returns_of_runs in
  doubled_df = map (map double) simulation_df /\
  (forallb in_normal_range
     (Rounded.risk_operations rnd64
        (map (fun column => last column NaN) simulation_df)
        initial_investment) = true ->
   Rounded.summarise rnd64 doubled_df (2 * initial_investment)
   = (metrics <- Rounded.summarise rnd64 simulation_df initial_investment;;
      Ok (double_metrics metrics))).
Proof.
  intros Hz Hall simulation_df doubled_df.
  assert (E : doubled_df = map (map double) simulation_df)
    by now apply rounded_simulation_df_double.
  split; [exact E|]. intro Hops.
  unfold Rounded.summarise. rewrite E, double_iloc_last.
  unfold iloc_last in *.
  destruct (nrows simulation_df =? 0); [reflexivity|]. cbn [bind].
  now apply rounded_risk_metrics_double.
Qed.

Lemma doubling_is_exact_in_the_normal_range_witness :
  let simulation_df :=
    Rounded.simulation_df rnd64 10000
      [[five_percent; two_percent]; [two_percent; two_percent];
       [two_percent; five_percent]] in
  let doubled_df :=
    Rounded.simulation_df rnd64 (2 * 10000)
      [[five_percent; two_percent]; [two_percent; two_percent];
       [two_percent; five_percent]] in
  doubled_df = map (map double) simulation_df /\
  Rounded.summarise rnd64 doubled_df (2 * 10000)
  = (metrics <- Rounded.summarise rnd64 simulation_df 10000;;
     Ok (double_metrics metrics)).
Proof.
  destruct (@doubling_is_exact_in_the_normal_range 10000
              [[five_percent; two_percent]; [two_percent; two_percent];
               [two_percent; five_percent]]) as (Hdf & Hrisk).
  - reflexivity.
  - repeat constructor.
  - split; [exact Hdf|]. apply Hrisk. vm_compute. reflexivity.
Defined.

(** C6, as stated, fails in binary64 on the finite statistics (mean
    [3 * 2^-53 - 1], volatility 0), whose returns are all that mean: on day
    20 the run on 20000 holds 381 steps of [2^-1074] and twice the run on
    10000 holds 380.  The products of the run on 10000 have left the range
    of the normal doubles. *)
Lemma doubling_fails_on_underflow :
  finite_stats [(collapse, zero)] = true /\
  forallb (eqb collapse)
    (@portfolio_returns_of_run toy_rng 42 [(collapse, zero)] 21 0) = true /\
  forallb loses_less_than_all (repeat collapse 21) = true /\
  eqb (nth 20 (Rounded.portfolio_path rnd64 (Rounded.of_Z rnd64 (2 * 10000))
                 (repeat collapse 21)) NaN)
      (Fin (Q2Qc (381 * pow2 (-1074)))) = true /\
  eqb (double
         (nth 20 (Rounded.portfolio_path rnd64 (Rounded.of_Z rnd64 10000)
                    (repeat collapse 21)) NaN))
      (Fin (Q2Qc (380 * pow2 (-1074)))) = true /\
  forallb in_normal_range
    (Rounded.loop_products rnd64 (Rounded.of_Z rnd64 10000)
       (repeat collapse 21)) = false.
Proof. vm_compute. repeat split. Qed.

(** ** The rounding against the IEEE-754 operations of the standard library *)

(** On every pair of the sample doubles, rounding the exact sum, difference,
    product and quotient gives the result of the binary64 operation as
    [SpecFloat] specifies it. *)
Example rounding_agrees_with_the_specification :
  forallb (fun x => same x (of_spec_float (to_spec_float x))) sample_doubles
  = true /\
  forallb (agrees add (SpecFloat.SFadd 53 1024))
    (list_prod sample_doubles sample_doubles) = true /\
  forallb (agrees sub (SpecFloat.SFsub 53 1024))
    (list_prod sample_doubles sample_doubles) = true /\
  forallb (agrees mul (SpecFloat.SFmul 53 1024))
    (list_prod sample_doubles sample_doubles) = true /\
  forallb (agrees div (SpecFloat.SFdiv 53 1024))
    (list_prod sample_doubles sample_doubles) = true.
Proof.
  split; [|split; [|split; [|split]]]; vm_compute; reflexivity.
Qed.

(** And the result of the operation as the processor computes it. *)
Example rounding_agrees_with_the_processor :
  forallb (agrees add (on_processor PrimFloat.add))
    (list_prod sample_doubles sample_doubles) = true /\
  forallb (agrees sub (on_processor PrimFloat.sub))
    (list_prod sample_doubles sample_doubles) = true /\
  forallb (agrees mul (on_processor PrimFloat.mul))
    (list_prod sample_doubles sample_doubles) = true /\
  forallb (agrees div (on_processor PrimFloat.div))
    (list_prod sample_doubles sample_doubles) = true.
Proof.
  split; [|split; [|split]]; vm_compute; reflexivity.
Qed.

(** * Worked examples *)

(** One asset with mean 0 and volatility 0, one run of five days on 10000:
    every value is 10000, the percentile is 10000 and the Value-at-Risk is
    0, which reads as a gain. *)
Example still_asset_keeps_the_investment :
  match @simulate_and_summarise toy_rng 42 still_stats 5 1 10000 0%Z with
  | Ok (simulation_df, metrics) =>
      map (map (eqb (of_Z 10000))) simulation_df
      = [[true; true; true; true; true]] /\
      eqb (future_value_95 metrics) (of_Z 10000) = true /\
      eqb (VaR_95 metrics) zero = true /\
      match verdict metrics with
      | SafeHarbor profit => eqb profit zero = true
      | RiskWarning _ => False
      end
  | Raise _ => False
  end.
Proof. vm_compute. repeat split. Qed.

(** A percentile that falls between two values. *)
Example percentile_between_two_values :
  match np_percentile [of_Z 7; of_Z 3] 5 with
  | Ok p5 => eqb p5 (Fin (Q2Qc (32 # 10))) = true
  | Raise _ => False
  end.
Proof. vm_compute. reflexivity. Qed.

(** One NaN among the values makes the percentile NaN. *)
Example percentile_with_nan :
  np_percentile [of_Z 7; NaN; of_Z 3] 5 = Ok NaN.
Proof. vm_compute. reflexivity. Qed.

(** Forward filling, then returns: 100, 110, (110), 121. *)
Example returns_after_forward_fill :
  map (map (eqb (percent 10)))
      (daily_returns (ffill [[of_Z 100; of_Z 110; NaN; of_Z 121]]))
  = [[true; false; true]].
Proof. vm_compute. reflexivity. Qed.

(** A price of zero gives an infinite return, which is kept. *)
Example return_from_zero_price :
  daily_returns (ffill [[zero; of_Z 5]]) = [[PInf]].
Proof. vm_compute. reflexivity. Qed.

(** The returns 0, 2, 4 have mean 2 and sample deviation 2. *)
Example statistics_of_three_returns :
  map (fun p => (eqb (fst p) (of_Z 2), eqb (snd p) (of_Z 2)))
      (@return_statistics toy_sqrt [[of_Z 0; of_Z 2; of_Z 4]])
  = [(true, true)].
Proof. vm_compute. reflexivity. Qed.

(** A negative volatility is refused by the sampler. *)
Example negative_scale_raises :
  @monte_carlo toy_rng 42 [(zero, of_Z (-1))] 3 2 10000 0%Z
  = Raise ValueError.
Proof. reflexivity. Qed.

(** Two runs of the toy generator differ: the second continues the stream. *)
Example second_run_continues_the_stream :
  match @monte_carlo toy_rng 42 example_stats 2 2 10000 0%Z with
  | Ok (simulation_df, st) =>
      eqb (value_at simulation_df 0 0) (Fin (Q2Qc (19997 # 2))) = true /\
      eqb (value_at simulation_df 0 0) (value_at simulation_df 1 0) = false /\
      st = @after_draws toy_rng 8 (@seed toy_rng 42)
  | Raise _ => False
  end.
Proof. vm_compute. repeat split. Qed.

(** * Further properties of the script *)

(** ** Forward filling *)

Lemma ffill_from_idempotent p c :
  ffill_from p (ffill_from p c) = ffill_from p c.
Proof.
  revert p. induction c as [|x c IH]; intro p; [reflexivity|].
  cbn [ffill_from].
  assert (E : (if isnan (if isnan x then p else x) then p
               else if isnan x then p else x)
              = (if isnan x then p else x)).
  { destruct x, p; reflexivity. }
  rewrite E. now rewrite IH.
Qed.

Lemma ffill_from_keeps p c t :
  isnan (nth t c NaN) = false ->
  nth t (ffill_from p c) NaN = nth t c NaN.
Proof.
  revert p t. induction c as [|x c IH]; intros p t Hx.
  - destruct t; discriminate.
  - destruct t as [|t]; cbn [ffill_from nth] in *.
    + now rewrite Hx.
    + now apply IH.
Qed.

Lemma ffill_from_after_price p c t :
  isnan p = false -> t < length c ->
  isnan (nth t (ffill_from p c) NaN) = false.
Proof.
  revert p t. induction c as [|x c IH]; intros p t Hp Ht; [cbn in Ht; lia|].
  assert (Hv : isnan (if isnan x then p else x) = false)
    by (destruct (isnan x) eqn:E; trivial).
  destruct t as [|t]; cbn [ffill_from nth]; [exact Hv|].
  apply IH; [exact Hv|cbn in Ht; lia].
Qed.

Lemma ffill_from_no_gap p c i j :
  i <= j -> j < length c ->
  isnan (nth i (ffill_from p c) NaN) = false ->
  isnan (nth j (ffill_from p c) NaN) = false.
Proof.
  revert p i j. induction c as [|x c IH]; intros p i j Hij Hj Hi;
    [cbn in Hj; lia|].
  cbn in Hj. destruct i as [|i].
  - destruct j as [|j]; [exact Hi|].
    cbn [ffill_from nth] in *. apply ffill_from_after_price; [exact Hi|lia].
  - destruct j as [|j]; [lia|].
    cbn [ffill_from nth] in *. apply (IH _ i j); trivial; lia.
Qed.

(** X1. Forward filling keeps the shape of the table and every price that
    is there; from the first price of a column on, no day of the column is
    missing (missing prices are left only at the head of a column); filling
    a filled table changes nothing. *)
Theorem ffill_fills_forward (data : DataFrame) :
  map (@length num) (ffill data) = map (@length num) data /\
  (forall prices t,
     In prices data -> isnan (nth t prices NaN) = false ->
     nth t (ffill_from NaN prices) NaN = nth t prices NaN) /\
  (forall filled i j,
     In filled (ffill data) -> i <= j -> j < length filled ->
     isnan (nth i filled NaN) = false -> isnan (nth j filled NaN) = false) /\
  ffill (ffill data) = ffill data.
Proof.
  split; [|split; [|split]].
  - unfold ffill. rewrite map_map. apply map_ext. intro c.
    apply ffill_from_length.
  - intros prices t _ Hx. now apply ffill_from_keeps.
  - intros filled i j Hin Hij Hj Hi. unfold ffill in Hin.
    apply in_map_iff in Hin. destruct Hin as (c & <- & _).
    rewrite ffill_from_length in Hj. now apply (ffill_from_no_gap _ _ Hij).
  - unfold ffill. rewrite map_map. apply map_ext. intro c.
    apply ffill_from_idempotent.
Qed.

(** ** Dropping incomplete days *)

Lemma take_rows_length ts c : length (take_rows ts c) = length ts.
Proof. unfold take_rows. apply length_map. Qed.

Lemma kept_row_complete df t c :
  In t (kept_rows df) -> In c df -> isnan (nth t c NaN) = false.
Proof.
  intros Ht Hc. unfold kept_rows in Ht. apply filter_In in Ht.
  destruct Ht as [_ Ht]. apply negb_true_iff in Ht.
  unfold row_has_na in Ht.
  destruct (isnan (nth t c NaN)) eqn:E; trivial.
  assert (Hex : existsb (fun c => isnan (nth t c NaN)) df = true)
    by (apply existsb_exists; now exists c).
  congruence.
Qed.

Lemma kept_rows_bound df : length (kept_rows df) <= nrows df.
Proof.
  unfold kept_rows.
  pose proof (filter_length_le (fun t => negb (row_has_na df t))
                (seq 0 (nrows df))) as Hle.
  now rewrite length_seq in Hle.
Qed.

Lemma dropna_nrows df : df <> [] -> nrows (dropna df) = length (kept_rows df).
Proof.
  destruct df as [|c df]; [congruence|]. intros _.
  cbn [dropna map nrows]. apply take_rows_length.
Qed.

Lemma take_all_rows c : take_rows (seq 0 (length c)) c = c.
Proof.
  unfold take_rows. apply (nth_ext _ _ NaN NaN).
  - now rewrite length_map, length_seq.
  - intros i Hi. rewrite length_map, length_seq in Hi.
    rewrite (nth_indep _ NaN (nth 0 c NaN))
      by (now rewrite length_map, length_seq).
    rewrite (map_nth (fun t => nth t c NaN)), seq_nth by exact Hi.
    reflexivity.
Qed.

Lemma dropna_no_nan df c x :
  In c (dropna df) -> In x c -> isnan x = false.
Proof.
  intros Hc Hx. unfold dropna in Hc. apply in_map_iff in Hc.
  destruct Hc as (c0 & <- & Hc0). unfold take_rows in Hx.
  apply in_map_iff in Hx. destruct Hx as (t & <- & Ht).
  now apply (kept_row_complete df).
Qed.

Lemma kept_rows_of_complete df :
  (forall c x, In c df -> In x c -> isnan x = false) ->
  (forall c, In c df -> length c = nrows df) ->
  kept_rows df = seq 0 (nrows df).
Proof.
  intros Hnan Hlen. unfold kept_rows. apply filter_all.
  intros t Ht. apply in_seq in Ht. apply negb_true_iff.
  apply not_true_is_false. intro Hex. unfold row_has_na in Hex.
  apply existsb_exists in Hex. destruct Hex as (c & Hc & Hna).
  rewrite (Hnan c (nth t c NaN)) in Hna; [discriminate|exact Hc|].
  apply nth_In. rewrite (Hlen c Hc). lia.
Qed.

Lemma dropna_of_complete df :
  (forall c x, In c df -> In x c -> isnan x = false) ->
  (forall c, In c df -> length c = nrows df) ->
  dropna df = df.
Proof.
  intros Hnan Hlen. unfold dropna. rewrite kept_rows_of_complete by assumption.
  transitivity (map (fun c : Series => c) df); [|apply map_id].
  apply map_ext_in. intros c Hc.
  rewrite <- (Hlen c Hc). apply take_all_rows.
Qed.

(** X2. After [dropna] no value of the frame is NaN, every column has the
    same number of rows, which is at most the number of rows before, and
    dropping again changes nothing; a frame without NaN whose columns have
    the same length is left as it is. *)
Theorem dropna_leaves_complete_rows (df : DataFrame) :
  (forall column value,
     In column (dropna df) -> In value column -> isnan value = false) /\
  (forall column,
     In column (dropna df) -> length column = length (kept_rows df)) /\
  length (kept_rows df) <= nrows df /\
  dropna (dropna df) = dropna df /\
  ((forall column value, In column df -> In value column ->
                         isnan value = false) ->
   (forall column, In column df -> length column = nrows df) ->
   dropna df = df).
Proof.
  assert (Hlen : forall column, In column (dropna df) ->
                                length column = length (kept_rows df)).
  { intros column Hc. unfold dropna in Hc. apply in_map_iff in Hc.
    destruct Hc as (c0 & <- & _). apply take_rows_length. }
  split; [intros c x; apply dropna_no_nan|]. split; [exact Hlen|].
  split; [apply kept_rows_bound|]. split; [|apply dropna_of_complete].
  destruct df as [|c0 df0] eqn:Edf; [reflexivity|]. rewrite <- Edf in *.
  apply dropna_of_complete.
  - intros c x. apply dropna_no_nan.
  - intros c Hc. rewrite dropna_nrows by (rewrite Edf; discriminate).
    now apply Hlen.
Qed.

(** ** The returns the simulation is fed *)

Lemma pct_ffill_first_day_dropped data :
  length (kept_rows (pct_change (ffill data))) <= nrows data - 1.
Proof.
  unfold kept_rows.
  assert (Hrows : nrows (pct_change (ffill data)) = nrows data).
  { rewrite pct_change_nrows. destruct data as [|c data]; [reflexivity|].
    cbn. apply ffill_from_length. }
  rewrite Hrows. destruct (nrows data) as [|D] eqn:ED; [cbn; lia|].
  cbn [seq filter].
  destruct data as [|c data]; [discriminate|].
  cbn [ffill map]. rewrite pct_first_day_na.
  - cbn [negb Nat.sub]. rewrite Nat.sub_0_r.
    match goal with
    | |- length (filter ?f ?l) <= _ =>
        pose proof (filter_length_le f l) as Hle
    end.
    now rewrite length_seq in Hle.
  - cbn in ED. intro E. apply (f_equal (@length num)) in E.
    rewrite ffill_from_length in E. cbn in E. lia.
Qed.

(** X3. Whatever the price table, the returns handed to the statistics hold
    no NaN, have the same number of days for every asset, and that number
    is at most the number of price days minus one: the first day is always
    dropped. *)
Theorem returns_are_complete (data : DataFrame) :
  let returns := daily_returns (ffill data) in
  (forall column value,
     In column returns -> In value column -> isnan value = false) /\
  (forall column, In column returns -> length column = nrows returns) /\
  nrows returns <= nrows data - 1 /\
  ncols returns = ncols data.
Proof.
  intro returns. unfold returns, daily_returns.
  destruct (dropna_leaves_complete_rows (pct_change (ffill data)))
    as (Hnan & Hlen & _ & _ & _).
  split; [exact Hnan|].
  assert (Hcols : ncols (dropna (pct_change (ffill data))) = ncols data).
  { unfold ncols, dropna, pct_change, ffill. now rewrite !length_map. }
  destruct (list_eq_dec Nat.eq_dec (map (@length num) data) [])
    as [Eempty|Hne0].
  - destruct data; [|discriminate].
    repeat split; try reflexivity. intros column [].
  - assert (Hne : pct_change (ffill data) <> []).
    { destruct data; [now contradiction Hne0|discriminate]. }
    rewrite (dropna_nrows Hne).
    split; [exact Hlen|]. split; [apply pct_ffill_first_day_dropped|].
    exact Hcols.
Qed.

(** ** One undefined statistic *)

Lemma fold_add_reaches_nan xs acc :
  isnan acc || existsb isnan xs = true -> fold_left add xs acc = NaN.
Proof.
  revert acc. induction xs as [|x xs IH]; intros acc Hn.
  - cbn in *. rewrite orb_false_r in Hn. now destruct acc.
  - cbn [fold_left]. apply IH. cbn [existsb] in Hn.
    destruct acc, x; cbn in *; trivial.
Qed.

Lemma np_mean_with_nan xs : existsb isnan xs = true -> np_mean xs = NaN.
Proof.
  intro Hn. unfold np_mean, sum.
  now rewrite fold_add_reaches_nan by (cbn; exact Hn).
Qed.

Section Poisoning.

Context {RS : RandomState}.

Lemma draw_row_with_nan stats st :
  existsb nan_statistic stats = true ->
  existsb isnan (fst (draw_row stats st)) = true.
Proof.
  revert st. induction stats as [|[loc scale] stats IH]; intros st Hn;
    [discriminate|].
  cbn [draw_row]. destruct (gauss st) as [g st1].
  specialize (IH st1). destruct (draw_row stats st1) as [xs st2].
  cbn [fst existsb] in *. apply orb_true_iff in Hn.
  destruct Hn as [Hp|Hrest].
  - unfold nan_statistic in Hp. cbn [fst snd] in Hp.
    apply orb_true_iff in Hp. apply orb_true_iff. left.
    destruct Hp as [Hl|Hs].
    + now destruct loc.
    + destruct scale; try discriminate. cbn. now rewrite add_NaN_r.
  - apply orb_true_iff. right. now apply IH.
Qed.

Lemma path_of_run_poisoned s stats H V0 r :
  existsb nan_statistic stats = true ->
  all_nan (path_of_run s stats H V0 r).
Proof.
  intro Hn. unfold path_of_run. apply portfolio_path_all_nan.
  unfold portfolio_returns_of_run, portfolio_daily_returns.
  apply Forall_map, Forall_forall. intros row Hin.
  apply np_mean_with_nan.
  apply (In_nth _ _ []) in Hin. destruct Hin as (t & Ht & <-).
  unfold random_returns_of_run in *. rewrite draw_rows_length in Ht.
  rewrite draw_rows_nth by exact Ht. now apply draw_row_with_nan.
Qed.

(** When every path is NaN, so are the risk figures. *)
Lemma nan_paths_summary s stats H R V0 amb :
  1 <= H -> 1 <= R -> scale_ok stats = true ->
  (forall r, all_nan (path_of_run s stats H V0 r)) ->
  simulate_and_summarise s stats H R V0 amb
  = Ok (map (path_of_run s stats H V0) (seq 0 R), nan_metrics).
Proof.
  intros HH HR Hok Hnan. unfold simulate_and_summarise.
  rewrite monte_carlo_ok by exact Hok. cbn [bind]. unfold iloc_last.
  replace (nrows (map (path_of_run s stats H V0) (seq 0 R)) =? 0) with false.
  2:{ symmetry. apply Nat.eqb_neq. destruct R as [|R]; [lia|].
      cbn [seq map nrows]. rewrite path_of_run_length. lia. }
  cbn [bind]. unfold risk_metrics. rewrite np_percentile_all_nan.
  - cbn [bind]. unfold sub. cbn [opp]. now rewrite add_NaN_r.
  - destruct R as [|R]; [lia|]. discriminate.
  - apply Forall_map, Forall_forall. intros c Hc.
    apply in_map_iff in Hc. destruct Hc as (r & <- & _).
    apply all_nan_last; [|apply Hnan].
    intro E. apply (f_equal (@length num)) in E.
    rewrite path_of_run_length in E. cbn in E. lia.
Qed.

End Poisoning.

(** X4. One asset whose mean or volatility is NaN is enough: nothing is
    raised, every value of every simulated path is NaN, so are the
    percentile and the Value-at-Risk, and the verdict shown is the gain
    scenario. *)
Theorem one_nan_statistic_poisons_the_simulation {RS : RandomState} (s : Z)
  (stats : ReturnStatistics) (H R : nat) (initial_investment : Z)
  (ambient : rng) :
  existsb nan_statistic stats = true ->
  scale_ok stats = true ->
  1 <= H -> 1 <= R ->
  exists simulation_df,
    simulate_and_summarise s stats H R initial_investment ambient
    = Ok (simulation_df,
          {| future_value_95 := NaN; VaR_95 := NaN;
             verdict := SafeHarbor NaN |}) /\
    ncols simulation_df = R /\
    forall r t, r < R -> t < H -> value_at simulation_df r t = NaN.
Proof.
  intros Hn Hok HH HR.
  eexists. split; [|split].
  - apply nan_paths_summary; trivial.
    intro r. now apply path_of_run_poisoned.
  - unfold ncols. now rewrite length_map, length_seq.
  - intros r t Hr Ht. rewrite value_at_path by exact Hr.
    apply all_nan_nth. now apply path_of_run_poisoned.
Qed.

Lemma one_nan_statistic_poisons_the_simulation_witness :
  exists simulation_df,
    @simulate_and_summarise toy_rng 42
      [(percent 1, percent 2); (percent 1, NaN)] 3 2 10000 0%Z
    = Ok (simulation_df,
          {| future_value_95 := NaN; VaR_95 := NaN;
             verdict := SafeHarbor NaN |}) /\
    ncols simulation_df = 2 /\
    forall r t, r < 2 -> t < 3 -> value_at simulation_df r t = NaN.
Proof.
  apply (@one_nan_statistic_poisons_the_simulation toy_rng 42
           [(percent 1, percent 2); (percent 1, NaN)] 3 2 10000 0%Z).
  - reflexivity.
  - reflexivity.
  - lia.
  - lia.
Defined.

(** ** When the sampler refuses *)

(** X5. The simulation loop fails in one way only: with [ValueError], when
    it runs at least once and some volatility is negative and not NaN; it
    never raises [IndexError], and without a run it returns the empty frame
    whatever the statistics.  The volatilities the script computes are never
    negative, so on them the loop always returns its [R] columns of [H]
    rows. *)
Theorem sampler_refuses_negative_volatility_only {RS : RandomState}
  {SQ : RealSqrt} (s : Z) (stats : ReturnStatistics) (returns : DataFrame)
  (H R : nat) (initial_investment : Z) (ambient : rng) :
  (monte_carlo s stats H R initial_investment ambient = Raise ValueError
   <-> scale_ok stats = false /\ 1 <= R) /\
  monte_carlo s stats H R initial_investment ambient <> Raise IndexError /\
  monte_carlo s stats H 0 initial_investment ambient = Ok ([], seed s) /\
  exists simulation_df st,
    monte_carlo s (return_statistics returns) H R initial_investment ambient
    = Ok (simulation_df, st) /\
    ncols simulation_df = R /\
    Forall (fun column => length column = H) simulation_df.
Proof.
  split; [|split; [|split; [reflexivity|]]].
  - destruct (scale_ok stats) eqn:Hok.
    + rewrite monte_carlo_ok by exact Hok.
      split; [discriminate|]. intros [E _]. discriminate.
    + destruct R as [|R].
      * split; [discriminate|]. intros [_ HR]. lia.
      * unfold monte_carlo. rewrite simulate_runs_raise by exact Hok.
        split; [intros _; split; [reflexivity|lia]|reflexivity].
  - destruct (scale_ok stats) eqn:Hok.
    + rewrite monte_carlo_ok by exact Hok. discriminate.
    + destruct R as [|R]; [discriminate|].
      unfold monte_carlo. rewrite simulate_runs_raise by exact Hok.
      discriminate.
  - eexists _, _. split; [apply monte_carlo_ok, scale_ok_statistics|].
    split.
    + unfold ncols. now rewrite length_map, length_seq.
    + apply Forall_map, Forall_forall. intros r _.
      apply path_of_run_length.
Qed.

(** ** Where the percentile lies *)

Lemma Qc_convex_lower (m a b g : Qc) :
  (m <= a)%Qc -> (m <= b)%Qc -> (0 <= g)%Qc -> (g <= 1)%Qc ->
  (m <= a + g * (b - a))%Qc.
Proof.
  intros Ha Hb G0 G1. qc2q.
  assert (P1 : (0 <= (1 - g) * (a - m))%Q)
    by (apply Qmult_le_0_compat; lra).
  assert (P2 : (0 <= g * (b - m))%Q) by (apply Qmult_le_0_compat; lra).
  setoid_replace (a + g * (b + - a))%Q
    with (m + ((1 - g) * (a - m) + g * (b - m)))%Q by ring.
  lra.
Qed.

Lemma Qc_convex_upper (M a b g : Qc) :
  (a <= M)%Qc -> (b <= M)%Qc -> (0 <= g)%Qc -> (g <= 1)%Qc ->
  (a + g * (b - a) <= M)%Qc.
Proof.
  intros Ha Hb G0 G1. qc2q.
  assert (P1 : (0 <= (1 - g) * (M - a))%Q)
    by (apply Qmult_le_0_compat; lra).
  assert (P2 : (0 <= g * (M - b))%Q) by (apply Qmult_le_0_compat; lra).
  setoid_replace (a + g * (b + - a))%Q
    with (M - ((1 - g) * (M - a) + g * (M - b)))%Q by ring.
  lra.
Qed.

Lemma Qc_convex_below (M a b g : Qc) :
  (a < M)%Qc -> (b < M)%Qc -> (0 <= g)%Qc -> (g <= 1)%Qc ->
  (a + g * (b - a) < M)%Qc.
Proof.
  intros Ha Hb G0 G1.
  destruct (Qclt_le_dec a b) as [L|L].
  - apply Qcle_lt_trans with b; [|exact Hb].
    apply Qc_convex_upper; trivial; [now apply Qclt_le_weak|apply Qcle_refl].
  - apply Qcle_lt_trans with a; [|exact Ha].
    apply Qc_convex_upper; trivial; apply Qcle_refl.
Qed.

Lemma Qc_convex_above (m a b g : Qc) :
  (m < a)%Qc -> (m < b)%Qc -> (0 <= g)%Qc -> (g <= 1)%Qc ->
  (m < a + g * (b - a))%Qc.
Proof.
  intros Ha Hb G0 G1.
  destruct (Qclt_le_dec a b) as [L|L].
  - apply Qclt_le_trans with a; [exact Ha|].
    apply Qc_convex_lower; trivial; [apply Qcle_refl|now apply Qclt_le_weak].
  - apply Qclt_le_trans with b; [exact Hb|].
    apply Qc_convex_lower; trivial; apply Qcle_refl.
Qed.

(** The percentile is a mixture of two values of the sample. *)
Lemma p5_is_a_mixture (values : list Qc) :
  values <> [] ->
  exists a b g,
    In a values /\ In b values /\ (0 <= g)%Qc /\ (g <= 1)%Qc /\
    linear_interpolation_p5 values = (a + g * (b - a))%Qc.
Proof.
  intro Hne. unfold linear_interpolation_p5.
  set (n := length values).
  set (rank := (Q2Qc (5 # 100) * Q2Qc (inject_Z (Z.of_nat n - 1)))%Qc).
  assert (Hn : 1 <= n) by (destruct values; [congruence|cbn; lia]).
  assert (Hidx : (0 <= Qfloor rank)%Z /\ Z.to_nat (Qfloor rank) < n /\
                 Z.to_nat (Qceiling rank) < n).
  { destruct (Nat.eq_dec n 1) as [E1|E1].
    - unfold rank. rewrite E1.
      replace (Qfloor _) with 0%Z by reflexivity.
      replace (Qceiling _) with 0%Z by reflexivity. cbn. lia.
    - pose proof (@rank_bounds n) as RB. cbv zeta in RB. fold rank in RB.
      destruct RB as (_ & _ & F0 & F1); [lia|].
      destruct (ceiling_cases rank) as [[Ec _]|Ec]; rewrite Ec; lia. }
  destruct Hidx as (F0 & Hlo & Hhi).
  exists (nth (Z.to_nat (Qfloor rank)) (sort_Qc values) 0%Qc),
         (nth (Z.to_nat (Qceiling rank)) (sort_Qc values) 0%Qc),
         (rank - Q2Qc (inject_Z (Qfloor rank)))%Qc.
  assert (Hin : forall i, i < n -> In (nth i (sort_Qc values) 0%Qc) values).
  { intros i Hi. apply (Permutation_in _ (Permutation_sym (sort_Qc_perm values))).
    apply nth_In. now rewrite sort_Qc_length. }
  split; [now apply Hin|]. split; [now apply Hin|].
  pose proof (Qfloor_le rank) as L1. pose proof (Qlt_floor rank) as L2.
  rewrite inject_Z_plus in L2.
  split; [|split].
  - qc2q. lra.
  - qc2q. unfold inject_Z at 2 in L2. lra.
  - reflexivity.
Qed.

(** X6. On a non-empty sample of finite values the 5th percentile is
    returned and lies within the sample: every lower bound of the values is
    a lower bound of it, and every upper bound an upper bound. *)
Theorem percentile_within_sample (values : list Qc) :
  values <> [] ->
  exists p5,
    np_percentile (map Fin values) 5 = Ok (Fin p5) /\
    (forall m, (forall v, In v values -> (m <= v)%Qc) -> (m <= p5)%Qc) /\
    (forall M, (forall v, In v values -> (v <= M)%Qc) -> (p5 <= M)%Qc).
Proof.
  intro Hne. exists (linear_interpolation_p5 values).
  split; [now apply np_percentile_Fin|].
  destruct (p5_is_a_mixture Hne) as (a & b & g & Ha & Hb & G0 & G1 & ->).
  split.
  - intros m Hm. apply Qc_convex_lower; auto.
  - intros M HM. apply Qc_convex_upper; auto.
Qed.

Lemma percentile_within_sample_witness :
  exists p5,
    np_percentile (map Fin [Q2Qc 7; Q2Qc 3; Q2Qc 5]) 5 = Ok (Fin p5) /\
    (forall m, (forall v, In v [Q2Qc 7; Q2Qc 3; Q2Qc 5] -> (m <= v)%Qc) ->
               (m <= p5)%Qc) /\
    (forall M, (forall v, In v [Q2Qc 7; Q2Qc 3; Q2Qc 5] -> (v <= M)%Qc) ->
               (p5 <= M)%Qc).
Proof.
  apply (@percentile_within_sample [Q2Qc 7; Q2Qc 3; Q2Qc 5]).
  discriminate.
Defined.

(** ** Unanimous runs *)

(** X7. On a non-empty row of finite ending values the risk figures are
    returned, and: when every run ends at or above the initial investment
    the Value-at-Risk is not positive and the verdict is the gain scenario;
    when every run ends below it, the verdict is the loss scenario; when
    every run ends above zero, the Value-at-Risk is at most the initial
    investment (it is the whole of it when the percentile is lost in the
    rounding of the subtraction). *)
Theorem unanimous_runs_decide_the_verdict (values : list Qc)
  (initial_investment : Z) :
  values <> [] ->
  exists metrics,
    risk_metrics (map Fin values) initial_investment = Ok metrics /\
    ((forall v, In v values -> (Q2Qc (inject_Z initial_investment) <= v)%Qc) ->
     leb (VaR_95 metrics) zero = true /\
     verdict metrics = SafeHarbor (abs (VaR_95 metrics))) /\
    ((forall v, In v values -> (v < Q2Qc (inject_Z initial_investment))%Qc) ->
     verdict metrics = RiskWarning (VaR_95 metrics)) /\
    ((forall v, In v values -> (0 < v)%Qc) ->
     leb (VaR_95 metrics) (of_Z initial_investment) = true).
Proof.
  intro Hne. unfold risk_metrics.
  rewrite np_percentile_Fin by exact Hne. cbn [bind].
  eexists. split; [reflexivity|]. cbn [VaR_95 verdict].
  destruct (p5_is_a_mixture Hne) as (a & b & g & Ha & Hb & G0 & G1 & Ep).
  rewrite Ep. set (p := (a + g * (b - a))%Qc).
  set (V := Q2Qc (inject_Z initial_investment)).
  unfold of_Z. fold V. cbn [sub opp add].
  split; [|split].
  - intro Hall.
    assert (L : (V <= p)%Qc) by (apply Qc_convex_lower; auto).
    pose proof (Qc_le_sub_nonpos L) as L'.
    split; [cbn; now apply Qc_leb_le|].
    unfold classify, gtb. cbn [ltb zero].
    replace (Qc_ltb 0 (V + - p)) with false
      by (symmetry; now apply Qc_ltb_false).
    reflexivity.
  - intro Hall.
    assert (L : (p < V)%Qc) by (apply Qc_convex_below; auto).
    apply Qc_lt_sub_pos, Qc_ltb_lt in L.
    unfold classify, gtb. cbn [ltb zero]. now rewrite L.
  - intro Hall.
    assert (L : (0 < p)%Qc) by (apply Qc_convex_above; auto).
    cbn [leb]. apply Qc_leb_le. clear - L. qc2q. lra.
Qed.

Lemma unanimous_runs_decide_the_verdict_witness :
  exists metrics,
    risk_metrics (map Fin [Q2Qc 7; Q2Qc 3; Q2Qc 5]) 4 = Ok metrics /\
    ((forall v, In v [Q2Qc 7; Q2Qc 3; Q2Qc 5] ->
                (Q2Qc (inject_Z 4) <= v)%Qc) ->
     leb (VaR_95 metrics) zero = true /\
     verdict metrics = SafeHarbor (abs (VaR_95 metrics))) /\
    ((forall v, In v [Q2Qc 7; Q2Qc 3; Q2Qc 5] ->
                (v < Q2Qc (inject_Z 4))%Qc) ->
     verdict metrics = RiskWarning (VaR_95 metrics)) /\
    ((forall v, In v [Q2Qc 7; Q2Qc 3; Q2Qc 5] -> (0 < v)%Qc) ->
     leb (VaR_95 metrics) (of_Z 4) = true).
Proof.
  apply (@unanimous_runs_decide_the_verdict [Q2Qc 7; Q2Qc 3; Q2Qc 5] 4).
  discriminate.
Defined.

(** ** The order of the runs *)

Lemma Qcle_transitive : Relations_1.Transitive Qcle.
Proof. intros x y z. apply Qcle_trans. Qed.

Lemma sorted_permutation_unique (l1 l2 : list Qc) :
  StronglySorted Qcle l1 -> StronglySorted Qcle l2 ->
  Permutation l1 l2 -> l1 = l2.
Proof.
  intro S1. revert l2. induction S1 as [|a l1 S1 IH Ha]; intros l2 S2 P.
  - now apply Permutation_nil in P.
  - destruct S2 as [|b l2 S2 Hb].
    + apply Permutation_sym, Permutation_nil in P. discriminate.
    + assert (E : a = b).
      { apply Qcle_antisym.
        - assert (Hin : In b (a :: l1))
            by (apply (Permutation_in _ (Permutation_sym P)); now left).
          destruct Hin as [->|Hin]; [apply Qcle_refl|].
          rewrite Forall_forall in Ha. now apply Ha.
        - assert (Hin : In a (b :: l2))
            by (apply (Permutation_in _ P); now left).
          destruct Hin as [->|Hin]; [apply Qcle_refl|].
          rewrite Forall_forall in Hb. now apply Hb. }
      subst b. f_equal. apply IH; [exact S2|].
      now apply Permutation_cons_inv in P.
Qed.

Lemma sort_Qc_of_permutation (l1 l2 : list Qc) :
  Permutation l1 l2 -> sort_Qc l1 = sort_Qc l2.
Proof.
  intro P. apply sorted_permutation_unique.
  - apply Sorted_StronglySorted; [exact Qcle_transitive|apply sort_Qc_sorted].
  - apply Sorted_StronglySorted; [exact Qcle_transitive|apply sort_Qc_sorted].
  - rewrite <- (sort_Qc_perm l1), <- (sort_Qc_perm l2). exact P.
Qed.

(** X8. The order in which the runs are listed does not matter: two rows
    of finite ending values that are rearrangements of each other have the
    same 5th percentile and the same risk figures. *)
Theorem risk_figures_ignore_run_order (values values' : list Qc)
  (initial_investment : Z) :
  Permutation values values' ->
  np_percentile (map Fin values) 5 = np_percentile (map Fin values') 5 /\
  risk_metrics (map Fin values) initial_investment
  = risk_metrics (map Fin values') initial_investment.
Proof.
  intro P.
  assert (E : np_percentile (map Fin values) 5
              = np_percentile (map Fin values') 5).
  { destruct values as [|v values0] eqn:Ev.
    - apply Permutation_nil in P. now subst.
    - rewrite <- Ev in *.
      assert (Hne : values <> []) by (rewrite Ev; discriminate).
      assert (Hne' : values' <> []).
      { intro E. subst values'. apply Permutation_sym, Permutation_nil in P.
        contradiction. }
      rewrite !np_percentile_Fin by assumption.
      unfold linear_interpolation_p5.
      now rewrite (sort_Qc_of_permutation P), (Permutation_length P). }
  split; [exact E|]. unfold risk_metrics. now rewrite E.
Qed.

Lemma risk_figures_ignore_run_order_witness :
  np_percentile (map Fin [Q2Qc 7; Q2Qc 3; Q2Qc 5]) 5
  = np_percentile (map Fin [Q2Qc 3; Q2Qc 7; Q2Qc 5]) 5 /\
  risk_metrics (map Fin [Q2Qc 7; Q2Qc 3; Q2Qc 5]) 4
  = risk_metrics (map Fin [Q2Qc 3; Q2Qc 7; Q2Qc 5]) 4.
Proof.
  apply (@risk_figures_ignore_run_order
           [Q2Qc 7; Q2Qc 3; Q2Qc 5] [Q2Qc 3; Q2Qc 7; Q2Qc 5] 4).
  apply perm_swap.
Defined.

(** ** The progress bar and the last prices *)

Lemma fraction_of_runs i R :
  i < R ->
  exists q, div (of_nat i) (of_nat R) = Fin q /\ (0 <= q)%Qc /\ (q < 1)%Qc.
Proof.
  intro Hi. unfold of_nat, of_Z. cbn [div].
  rewrite of_nat_nonzero by lia. eexists. split; [reflexivity|].
  assert (Pi : (0 <= inject_Z (Z.of_nat i))%Q).
  { change 0%Q with (inject_Z 0). rewrite <- Zle_Qle. lia. }
  assert (PR : (0 < inject_Z (Z.of_nat R))%Q).
  { change 0%Q with (inject_Z 0). rewrite <- Zlt_Qlt. lia. }
  assert (PiR : (inject_Z (Z.of_nat i) < inject_Z (Z.of_nat R))%Q).
  { rewrite <- Zlt_Qlt. lia. }
  split; qc2q.
  - apply Qle_shift_div_l; [exact PR|]. lra.
  - apply Qlt_shift_div_r; [exact PR|]. lra.
Qed.

Lemma report_accepted i R :
  i < R ->
  progress_accepts (ProgressFloat (div (of_nat i) (of_nat R))) = true.
Proof.
  intro Hi. destruct (fraction_of_runs Hi) as (q & -> & Q0 & Q1).
  cbn. apply andb_true_iff. split; apply Qc_leb_le;
    [exact Q0|now apply Qclt_le_weak].
Qed.

Lemma hundredth_runs_count R :
  length (filter (fun i => i mod 100 =? 0) (seq 0 R)) = (R + 99) / 100.
Proof.
  induction R as [|R IH]; [reflexivity|].
  rewrite seq_S, filter_app, length_app, IH. change (0 + R) with R.
  cbn [filter].
  pose proof (Nat.div_mod_eq R 100) as E0.
  assert (B0 : R mod 100 < 100) by (apply Nat.mod_upper_bound; lia).
  pose proof (Nat.div_mod_eq (R + 99) 100) as E1.
  assert (B1 : (R + 99) mod 100 < 100) by (apply Nat.mod_upper_bound; lia).
  pose proof (Nat.div_mod_eq (S R + 99) 100) as E2.
  assert (B2 : (S R + 99) mod 100 < 100)
    by (apply Nat.mod_upper_bound; lia).
  destruct (R mod 100 =? 0) eqn:Em.
  - apply Nat.eqb_eq in Em. cbn [length]. lia.
  - apply Nat.eqb_neq in Em. cbn [length]. lia.
Qed.

Section TabFacts.

Context {RS : RandomState} {SQ : RealSqrt}.

Lemma reporting_loop_ok stats H V0 R n i df st log :
  scale_ok stats = true -> i + n <= R ->
  exists r,
    simulate_runs stats H V0 n df st = Ok r /\
    simulate_runs_reporting stats H V0 R n i df st log
    = (log ++ map (fun i => ProgressFloat (div (of_nat i) (of_nat R)))
                (filter (fun i => i mod 100 =? 0) (seq i n)),
       Shown r).
Proof.
  intros Hok. revert i df st log.
  induction n as [|n IH]; intros i df st log Hi.
  - eexists. split; [reflexivity|]. cbn. now rewrite app_nil_r.
  - cbn [simulate_runs simulate_runs_reporting seq filter].
    rewrite simulate_run_ok by exact Hok. cbn [bind].
    destruct (i mod 100 =? 0).
    + rewrite report_accepted by lia.
      destruct (IH (S i) (df ++ [portfolio_path (of_Z V0)
                                   (portfolio_daily_returns
                                      (fst (draw_rows stats H st)))])
                  (after_draws (H * length stats) st)
                  (log ++ [ProgressFloat (div (of_nat i) (of_nat R))]))
        as (r & Er & Elog); [lia|].
      exists r. split; [exact Er|]. rewrite Elog. cbn [map].
      now rewrite <- app_assoc.
    + destruct (IH (S i) (df ++ [portfolio_path (of_Z V0)
                                   (portfolio_daily_returns
                                      (fst (draw_rows stats H st)))])
                  (after_draws (H * length stats) st) log)
        as (r & Er & Elog); [lia|].
      exists r. split; [exact Er|exact Elog].
Qed.

Lemma reporting_loop_raises stats H V0 R n i df st log :
  scale_ok stats = false ->
  simulate_runs_reporting stats H V0 R (S n) i df st log
  = (log, Failed (CoreError ValueError)).
Proof.
  intro Hok. cbn [simulate_runs_reporting].
  now rewrite simulate_run_raise.
Qed.

End TabFacts.

(** X9. The progress bar is advisory: the loop that reports to it returns
    the frame and the generator state of the loop that does not, and fails
    when and as that loop fails, with nothing reported.  What it reports, in
    order, is [i / R] for every hundredth run [i]; every report is accepted
    by the bar and is below 1, so the bar is never full before the loop has
    ended. *)
Theorem progress_is_advisory {RS : RandomState} (stats : ReturnStatistics)
  (H R : nat) (initial_investment : Z) (st : rng)
  (log : list progress_value) :
  simulate_runs_reporting stats H initial_investment R R 0 [] st log
  = match simulate_runs stats H initial_investment R [] st with
    | Ok r => (log ++ progress_reports R, Shown r)
    | Raise e => (log, Failed (CoreError e))
    end /\
  Forall (fun v => progress_accepts v = true) (progress_reports R) /\
  Forall (fun v => exists x, v = ProgressFloat x /\ ltb x one = true)
         (progress_reports R) /\
  length (progress_reports R) = (R + 99) / 100.
Proof.
  assert (Hrep : forall i, In i (filter (fun i => i mod 100 =? 0) (seq 0 R))
                           -> i < R).
  { intros i Hi. apply filter_In in Hi. destruct Hi as [Hi _].
    apply in_seq in Hi. lia. }
  split; [|split; [|split]].
  - destruct (scale_ok stats) eqn:Hok.
    + destruct (@reporting_loop_ok RS stats H initial_investment R R 0 [] st
                  log Hok) as (r & Er & Elog); [lia|].
      now rewrite Er, Elog.
    + destruct R as [|R]; [cbn; now rewrite app_nil_r|].
      rewrite reporting_loop_raises by exact Hok.
      now rewrite simulate_runs_raise by exact Hok.
  - unfold progress_reports. apply Forall_map, Forall_forall.
    intros i Hi. apply report_accepted. now apply Hrep.
  - unfold progress_reports. apply Forall_map, Forall_forall.
    intros i Hi. destruct (fraction_of_runs (Hrep i Hi)) as (q & E & _ & Q1).
    eexists. split; [reflexivity|]. rewrite E. cbn. now apply Qc_ltb_lt.
  - unfold progress_reports. rewrite length_map. apply hundredth_runs_count.
Qed.


Lemma script_reports_count : length (progress_reports num_simulations) = 100.
Proof.
  unfold progress_reports. rewrite length_map, hundredth_runs_count.
  vm_compute. reflexivity.
Qed.

Section TabAgainstSummary.

Context {RS : RandomState} {SQ : RealSqrt}.

(** On a table with a row, the tab is [simulate_and_summarise] with the
    calls of the bar around it. *)
Lemma monte_carlo_tab_follows_summary s H R data returns V0 amb :
  nrows data <> 0 ->
  monte_carlo_tab s H R data returns V0 amb
  = ([ProgressInt 0] ++ progress_reports R ++ [ProgressInt 100],
     match simulate_and_summarise s (return_statistics returns) H R V0 amb
     with
     | Ok shown => Shown shown
     | Raise e => Failed (CoreError e)
     end).
Proof.
  intro Hrows. unfold monte_carlo_tab, iloc_last at 1.
  replace (nrows data =? 0) with false by (symmetry; now apply Nat.eqb_neq).
  change (progress_accepts (ProgressInt 0)) with true.
  change (progress_accepts (ProgressInt 100)) with true. cbv iota.
  set (stats := return_statistics returns).
  destruct (@reporting_loop_ok RS stats H V0 R R 0 [] (seed s)
              [ProgressInt 0] (scale_ok_statistics _))
    as ([df0 st0] & Er & Elog); [apply Nat.le_refl|].
  rewrite Elog. fold (progress_reports R).
  unfold simulate_and_summarise, monte_carlo. rewrite Er. cbn [bind].
  rewrite <- app_assoc.
  destruct (iloc_last df0) as [ending_values|e]; [|reflexivity].
  cbn [bind].
  destruct (risk_metrics ending_values V0) as [m|e]; reflexivity.
Qed.

End TabAgainstSummary.

(** X10. Followed statement by statement, the simulation tab fails on
    exactly one kind of price table: on a table without rows, taking
    [last_prices] raises [IndexError] before the bar is created and a number
    is drawn.  On every table with at least one row nothing fails: the tab
    shows the frame and the risk figures of [run_analysis], after 102 calls
    of the bar: 0, then [i / 10000] for every hundredth run, then 100. *)
Theorem script_fails_on_empty_table_only {RS : RandomState} {SQ : RealSqrt}
  (data : DataFrame) (initial_investment : Z) (ambient : rng) :
  (nrows data = 0 ->
   script data initial_investment ambient
   = ([], Failed (CoreError IndexError))) /\
  (nrows data <> 0 ->
   exists simulation_df metrics,
     run_analysis data initial_investment ambient
     = Ok (simulation_df, metrics) /\
     script data initial_investment ambient
     = ([ProgressInt 0] ++ progress_reports num_simulations
          ++ [ProgressInt 100],
        Shown (simulation_df, metrics)) /\
     length (fst (script data initial_investment ambient)) = 102).
Proof.
  split.
  - intro Hrows. unfold script, monte_carlo_tab, iloc_last.
    rewrite ffill_nrows, Hrows. reflexivity.
  - intro Hrows.
    destruct (run_analysis_returns data initial_investment ambient Hrows)
      as (simulation_df & metrics & Hrun).
    exists simulation_df, metrics. split; [exact Hrun|].
    assert (Escript :
      script data initial_investment ambient
      = ([ProgressInt 0] ++ progress_reports num_simulations
           ++ [ProgressInt 100],
         Shown (simulation_df, metrics))).
    { unfold script.
      rewrite monte_carlo_tab_follows_summary by now rewrite ffill_nrows.
      rewrite run_analysis_with_rows in Hrun by exact Hrows.
      now rewrite Hrun. }
    split; [exact Escript|].
    rewrite Escript. cbn [fst]. rewrite !length_app, script_reports_count.
    reflexivity.
Qed.

(** ** A gap in the prices *)

Lemma ffill_from_step p c t :
  S t < length c ->
  nth (S t) (ffill_from p c) NaN =
  if isnan (nth (S t) c NaN) then nth t (ffill_from p c) NaN
  else nth (S t) c NaN.
Proof.
  revert p t. induction c as [|x c IH]; intros p t Ht; [cbn in Ht; lia|].
  cbn in Ht. cbn [ffill_from]. set (v := if isnan x then p else x).
  destruct t as [|t].
  - destruct c as [|y c]; [cbn in Ht; lia|]. reflexivity.
  - change (nth (S (S t)) (v :: ffill_from v c) NaN)
      with (nth (S t) (ffill_from v c) NaN).
    rewrite IH by lia. reflexivity.
Qed.

(** X11. A day on which a price is missing, after a day on which the
    filled price is finite and not zero, enters the returns as a return of
    exactly zero: the price of the day before is carried over. *)
Theorem filled_gap_is_a_zero_return (prices : Series) (t : nat) (p : Qc) :
  S t < length prices ->
  isnan (nth (S t) prices NaN) = true ->
  nth t (ffill_from NaN prices) NaN = Fin p ->
  p <> 0%Qc ->
  nth (S t) (ffill_from NaN prices) NaN = Fin p /\
  nth (S t) (pct_from NaN (ffill_from NaN prices)) NaN = zero.
Proof.
  intros Ht Hgap Hprev Hp.
  assert (E : nth (S t) (ffill_from NaN prices) NaN = Fin p)
    by now rewrite ffill_from_step, Hgap.
  split; [exact E|].
  rewrite pct_from_nth by now rewrite ffill_from_length.
  rewrite E, Hprev. cbn [div sub opp add one].
  replace (Qc_is_zero p) with false.
  - unfold zero. apply (f_equal Fin). field. exact Hp.
  - symmetry. destruct (Qc_is_zero p) eqn:Ez; trivial.
    apply Qc_is_zero_eq in Ez. contradiction.
Qed.

Lemma filled_gap_is_a_zero_return_witness :
  nth 2 (ffill_from NaN [of_Z 100; of_Z 110; NaN; of_Z 121]) NaN
  = Fin (Q2Qc (inject_Z 110)) /\
  nth 2 (pct_from NaN (ffill_from NaN [of_Z 100; of_Z 110; NaN; of_Z 121]))
      NaN
  = zero.
Proof.
  apply (@filled_gap_is_a_zero_return
           [of_Z 100; of_Z 110; NaN; of_Z 121] 1 (Q2Qc (inject_Z 110))).
  - cbn. lia.
  - reflexivity.
  - reflexivity.
  - discriminate.
Defined.

(** ** No volatility *)



Section NoVolatility.

Context {RS : RandomState}.



End NoVolatility.


